(** * YASK: vector registers, expression visitors, pointer cache, FD coefficients

    A shallow embedding of the parts of YASK (Yet Another Stencil Kernel)
    that its specification makes checkable statements about:

    - [Realv]     : the [realv] union of [src/realv.hpp] and the emulated
                    (EMU_INTRINSICS) lane primitives built on it;
    - [Grid]      : grid points, as far as [src/compiler/lib/Cpp.hpp] uses them;
    - [Visitor]   : the expression visitors of [src/foldBuilder/Visitor.hpp];
    - [Cpp]       : the pointer cache of [CppVecPrintHelper];
    - [FdCoeff]   : the finite-difference coefficient solver of
                    [src/coefficients/fd_coeff.cpp].

    C++ objects passed by reference live in an explicit store, an access
    outside an array is an error ([None]), and a lane of a register is the bit
    pattern it holds, read either as a real ([r]) or as a control integer
    ([ci]) exactly as the union allows. *)

From Stdlib Require Import ZArith Lia.
From Stdlib Require Import Floats.SpecFloat.
From stdpp Require Import base option list gmap strings pretty.

Local Open Scope Z_scope.

(** ** C [for] loops over an [int] index, in the error monad *)

Section ForLoop.
Context {St : Type}.

(** [n] iterations of [body], the index starting at [i] and stepping by one. *)
Fixpoint for_range (n : nat) (i : Z) (body : Z → St → option St) (s : St)
  : option St :=
  match n with
  | O => Some s
  | S n' => s' ← body i s; for_range n' (i + 1) body s'
  end.

(** [for (int i = lo; i < hi; i++) body] *)
Definition for_loop (lo hi : Z) (body : Z → St → option St) (s : St)
  : option St :=
  for_range (Z.to_nat (hi - lo)) lo body s.

End ForLoop.

(** ** The vector register of [realv.hpp] *)

Module Realv.

(** [REAL_BYTES] is 4 or 8; anything else is an [#error]. *)
Inductive real_bytes := REAL_BYTES_4 | REAL_BYTES_8.

Definition CTRL_IDX_MASK (rb : real_bytes) : Z :=
  match rb with REAL_BYTES_4 => 0xf | REAL_BYTES_8 => 0x7 end.
Definition CTRL_SEL_BIT (rb : real_bytes) : Z :=
  match rb with REAL_BYTES_4 => 0x10 | REAL_BYTES_8 => 0x8 end.
Definition V512_ELEMS (rb : real_bytes) : Z :=
  match rb with REAL_BYTES_4 => 16 | REAL_BYTES_8 => 8 end.

(** Layout of a [REAL]: IEEE 754 binary32 ([float]) or binary64 ([double]). *)
Definition REAL_prec (rb : real_bytes) : Z :=
  match rb with REAL_BYTES_4 => 24 | REAL_BYTES_8 => 53 end.
Definition REAL_emax (rb : real_bytes) : Z :=
  match rb with REAL_BYTES_4 => 128 | REAL_BYTES_8 => 1024 end.
Definition REAL_expbits (rb : real_bytes) : Z :=
  match rb with REAL_BYTES_4 => 8 | REAL_BYTES_8 => 11 end.
Definition REAL_bits (rb : real_bytes) : Z :=
  match rb with REAL_BYTES_4 => 32 | REAL_BYTES_8 => 64 end.

(** The real number a lane's bit pattern stands for when it is read through
    [r]: sign bit, biased exponent, fraction. *)
Definition REAL_of_bits (rb : real_bytes) (x : Z) : spec_float :=
  let mw := REAL_prec rb - 1 in
  let ew := REAL_expbits rb in
  let s := Z.testbit x (mw + ew) in
  let e := Z.land (Z.shiftr x mw) (Z.ones ew) in
  let f := Z.land x (Z.ones mw) in
  if e =? 0 then
    match f with
    | Zpos p => S754_finite s p (emin (REAL_prec rb) (REAL_emax rb))
    | _ => S754_zero s
    end
  else if e =? Z.ones ew then
    if f =? 0 then S754_infinity s else S754_nan
  else
    match f + 2 ^ mw with
    | Zpos p => S754_finite s p (e + emin (REAL_prec rb) (REAL_emax rb) - 1)
    | _ => S754_nan
    end.

(** A register is its [VLEN] lanes; an object of type [realv] lives in the
    store under its address. *)
Abbreviation realv := (list Z).
Abbreviation mem := (gmap nat realv).

(** [v.r[i]] / [v.ci[i]] with an [int] or unsigned index: outside the array
    the access is undefined, here an error. *)
Definition rd (v : realv) (i : Z) : option Z :=
  if decide (0 ≤ i) then v !! Z.to_nat i else None.

Definition wr (v : realv) (i : Z) (x : Z) : option realv :=
  if decide (0 ≤ i < Z.of_nat (length v)) then Some (<[Z.to_nat i := x]> v)
  else None.

(** The same through a reference. *)
Definition load (m : mem) (a : nat) (i : Z) : option Z :=
  v ← m !! a; rd v i.

Definition store (m : mem) (a : nat) (i : Z) (x : Z) : option mem :=
  v ← m !! a; v' ← wr v i x; Some (<[a := v']> m).

(** [(k1 >> i) & 1] on an [unsigned int]; a shift by the width or more is
    undefined. *)
Definition mask_bit (k1 : Z) (i : Z) : option bool :=
  if decide (0 ≤ i < 32) then Some (negb (Z.land (Z.shiftr k1 i) 1 =? 0))
  else None.

Section Ops.
Variable VLEN : Z.
Variable rb : real_bytes.

Definition wf_realv (v : realv) : Prop := Z.of_nat (length v) = VLEN.

(** *** Comparison operators *)

Definition REAL_lt (x y : Z) : bool :=
  SFltb (REAL_of_bits rb x) (REAL_of_bits rb y).
Definition REAL_gt (x y : Z) : bool :=
  SFltb (REAL_of_bits rb y) (REAL_of_bits rb x).
Definition REAL_ne (x y : Z) : bool :=
  negb (SFeqb (REAL_of_bits rb x) (REAL_of_bits rb y)).

(** [bool operator<(const realv& rhs) const] *)
Fixpoint lt_from (n : nat) (j : Z) (a b : realv) : option bool :=
  match n with
  | O => Some false
  | S n' =>
      x ← rd a j; y ← rd b j;
      if REAL_lt x y then Some true
      else if REAL_gt x y then Some false
      else lt_from n' (j + 1) a b
  end.
Definition realv_lt (a b : realv) : option bool :=
  lt_from (Z.to_nat VLEN) 0 a b.

(** [bool operator>(const realv& rhs) const] *)
Fixpoint gt_from (n : nat) (j : Z) (a b : realv) : option bool :=
  match n with
  | O => Some false
  | S n' =>
      x ← rd a j; y ← rd b j;
      if REAL_gt x y then Some true
      else if REAL_lt x y then Some false
      else gt_from n' (j + 1) a b
  end.
Definition realv_gt (a b : realv) : option bool :=
  gt_from (Z.to_nat VLEN) 0 a b.

(** [bool operator==(const realv& rhs) const] *)
Fixpoint eq_from (n : nat) (j : Z) (a b : realv) : option bool :=
  match n with
  | O => Some true
  | S n' =>
      x ← rd a j; y ← rd b j;
      if REAL_ne x y then Some false
      else eq_from n' (j + 1) a b
  end.
Definition realv_eq (a b : realv) : option bool :=
  eq_from (Z.to_nat VLEN) 0 a b.

(** *** Emulated lane primitives ([EMU_INTRINSICS]) *)

(** [realv_align(res, v2, v3, count)] *)
Definition realv_align (res v2 v3 : nat) (count : Z) (m : mem)
  : option mem :=
  m1 ← for_loop 0 (VLEN - count)
         (λ i m, x ← load m v3 (i + count); store m res i x) m;
  for_loop (VLEN - count) VLEN
    (λ i m, x ← load m v2 (i + count - VLEN); store m res i x) m1.

(** [realv_align(res, v2, v3, count, k1)] *)
Definition realv_align_mask (res v2 v3 : nat) (count : Z) (k1 : Z)
  (m : mem) : option mem :=
  m1 ← for_loop 0 (VLEN - count)
         (λ i m, b ← mask_bit k1 i;
                 if b : bool then x ← load m v3 (i + count); store m res i x
                 else Some m) m;
  for_loop (VLEN - count) VLEN
    (λ i m, b ← mask_bit k1 i;
            if b : bool then
              x ← load m v2 (i + count - VLEN); store m res i x
            else Some m) m1.

(** [realv_permute(res, ctrl, v3)]; [tmp] is the local copy of [v3]. *)
Definition realv_permute (res ctrl v3 : nat) (m : mem) : option mem :=
  tmp ← m !! v3;
  for_loop 0 VLEN
    (λ i m, c ← load m ctrl i; x ← rd tmp c; store m res i x) m.

(** [realv_permute(res, ctrl, v3, k1)] *)
Definition realv_permute_mask (res ctrl v3 : nat) (k1 : Z) (m : mem)
  : option mem :=
  tmp ← m !! v3;
  for_loop 0 VLEN
    (λ i m, b ← mask_bit k1 i;
            if b : bool then
              c ← load m ctrl i; x ← rd tmp c; store m res i x
            else Some m) m.

(** [realv_permute2(res, ctrl, a, b)] *)
Definition realv_permute2 (res ctrl a b : nat) (m : mem) : option mem :=
  tmpa ← m !! a;
  tmpb ← m !! b;
  for_loop 0 VLEN
    (λ i m, c ← load m ctrl i;
            let sel := Z.land c (CTRL_SEL_BIT rb) in
            let idx := Z.land c (CTRL_IDX_MASK rb) in
            x ← (if sel =? 0 then rd tmpa idx else rd tmpb idx);
            store m res i x) m.
End Ops.
End Realv.

(** ** Grids and grid points *)

Module Grid.

(** Modelled from the spec: the index expression of one dimension of a grid
    point (the class lives in Expr.hpp, which is not among the sources): a
    constant offset from the dimension's loop variable, such as [x+1], or a
    pure constant. *)
Inductive IndexExpr :=
| IdxOffset (ofs : Z)
| IdxConst (c : Z).

(** Modelled from the spec: a grid is a name and a fixed list of dimensions
    (Grid.hpp is not among the sources). *)
Record Grid := { grid_name : string; grid_dims : list string }.

(** Modelled from the spec: a grid point is the grid plus one index expression
    for every dimension of the grid, in the grid's order; two points are equal
    iff the grid and all index expressions are. *)
Record GridPoint := { gp_grid : Grid; gp_args : list IndexExpr }.

#[global] Instance IndexExpr_eq_dec : EqDecision IndexExpr.
Proof. solve_decision. Defined.

#[global] Instance Grid_eq_dec : EqDecision Grid.
Proof. solve_decision. Defined.

#[global] Instance GridPoint_eq_dec : EqDecision GridPoint.
Proof. solve_decision. Defined.

#[global] Instance IndexExpr_countable : Countable IndexExpr.
Proof.
  refine (inj_countable'
            (λ e, match e with IdxOffset o => inl o | IdxConst c => inr c end)
            (λ s, match s with inl o => IdxOffset o | inr c => IdxConst c end)
            _).
  by intros [].
Defined.

#[global] Instance Grid_countable : Countable Grid.
Proof.
  refine (inj_countable' (λ g, (grid_name g, grid_dims g))
            (λ p, {| grid_name := p.1; grid_dims := p.2 |}) _).
  by intros [].
Defined.

#[global] Instance GridPoint_countable : Countable GridPoint.
Proof.
  refine (inj_countable' (λ g, (gp_grid g, gp_args g))
            (λ p, {| gp_grid := p.1; gp_args := p.2 |}) _).
  by intros [].
Defined.

(** [IntScalar]: a dimension name with an integer value. *)
Record IntScalar := { is_name : string; is_val : Z }.

(** The index expression a point has in dimension [d], if its grid has [d]. *)
Fixpoint arg_in (dims : list string) (args : list IndexExpr) (d : string)
  : option IndexExpr :=
  match dims, args with
  | dn :: dims', a :: args' =>
      if decide (dn = d) then Some a else arg_in dims' args' d
  | _, _ => None
  end.

Definition getArg (gp : GridPoint) (d : string) : option IndexExpr :=
  arg_in (grid_dims (gp_grid gp)) (gp_args gp) d.

(** [gp.cloneGridPoint()]: a fresh point with the same contents. *)
Definition cloneGridPoint (gp : GridPoint) : GridPoint :=
  {| gp_grid := gp_grid gp; gp_args := gp_args gp |}.

(** Modelled from the spec: [GridPoint::setArgConst] (Expr.hpp is not among
    the sources) replaces the index expression of the named dimension by the
    given constant and leaves a point whose grid lacks the dimension alone. *)
Fixpoint setArgConst_in (dims : list string) (args : list IndexExpr)
  (val : IntScalar) : list IndexExpr :=
  match dims, args with
  | dn :: dims', a :: args' =>
      if decide (dn = is_name val) then IdxConst (is_val val) :: args'
      else a :: setArgConst_in dims' args' val
  | _, _ => args
  end.

Definition setArgConst (gp : GridPoint) (val : IntScalar) : GridPoint :=
  {| gp_grid := gp_grid gp;
     gp_args := setArgConst_in (grid_dims (gp_grid gp)) (gp_args gp) val |}.

(** Modelled from the spec: a fold shape gives every folded domain dimension
    its multiplicity, and the fold planner's base point of an access has the
    offset of every fold dimension forced to its floor-of-fold-shape-aligned
    value (Vec.hpp is not among the sources). *)
Abbreviation FoldShape := (list (string * Z)).

Fixpoint fold_mult (fold : FoldShape) (d : string) : option Z :=
  match fold with
  | [] => None
  | (dn, k) :: fold' => if decide (dn = d) then Some k else fold_mult fold' d
  end.

Definition alignedOffset (k ofs : Z) : Z := k * (ofs / k).

Fixpoint foldBase_in (fold : FoldShape) (dims : list string)
  (args : list IndexExpr) : list IndexExpr :=
  match dims, args with
  | dn :: dims', a :: args' =>
      match a, fold_mult fold dn with
      | IdxOffset o, Some k => IdxOffset (alignedOffset k o)
      | _, _ => a
      end :: foldBase_in fold dims' args'
  | _, _ => args
  end.

Definition foldBasePoint (fold : FoldShape) (gp : GridPoint) : GridPoint :=
  {| gp_grid := gp_grid gp;
     gp_args := foldBase_in fold (grid_dims (gp_grid gp)) (gp_args gp) |}.

End Grid.

(** ** Expression trees and their visitors ([Visitor.hpp]) *)

Module Visitor.
Import Grid.

(** Modelled from the spec: the node classes of the expression IR (Expr.hpp is
    not among the sources), with the accessors [Visitor.hpp] calls on them:
    [getRhs], [getLhs], [getOps].  A node that several parents point to occurs
    as the same subterm under each of them: the visitors below keep no mark on
    a node and never write to one, so a traversal cannot tell the two apart. *)
#[local] Unset Elimination Schemes.
Inductive Expr :=
| ConstExpr (val : Z)
| CodeExpr (code : string)
| GridPointExpr (gp : GridPoint)
| UnaryExpr (opStr : string) (rhs : Expr)
| BinaryExpr (opStr : string) (lhs rhs : Expr)
| EqualsExpr (lhs : GridPoint) (rhs : Expr)
| CommutativeExpr (opStr : string) (ops : list Expr).
#[local] Set Elimination Schemes.

(** [class ExprVisitor]: one virtual [visit] per node class.  A [visit] gets
    the node and, for every child [c] of the node, the action
    [c->accept(this)], which it may run on the visitor's state. *)
Record ExprVisitor (St : Type) := {
  visit_ConstExpr : Z → St → St;
  visit_CodeExpr : string → St → St;
  visit_GridPoint : GridPoint → St → St;
  visit_UnaryExpr : string → Expr → (St → St) → St → St;
  visit_BinaryExpr : string → Expr → Expr → (St → St) → (St → St) → St → St;
  visit_EqualsExpr : GridPoint → Expr → (St → St) → (St → St) → St → St;
  visit_CommutativeExpr : string → list Expr → list (St → St) → St → St;
}.
Arguments visit_ConstExpr {St}.
Arguments visit_CodeExpr {St}.
Arguments visit_GridPoint {St}.
Arguments visit_UnaryExpr {St}.
Arguments visit_BinaryExpr {St}.
Arguments visit_EqualsExpr {St}.
Arguments visit_CommutativeExpr {St}.

(** Modelled from the spec: [accept] is the double dispatch of every node
    class, [ev->visit(this)]. *)
Fixpoint accept {St} (ev : ExprVisitor St) (e : Expr) : St → St :=
  match e with
  | ConstExpr c => visit_ConstExpr ev c
  | CodeExpr s => visit_CodeExpr ev s
  | GridPointExpr gp => visit_GridPoint ev gp
  | UnaryExpr op r => visit_UnaryExpr ev op r (accept ev r)
  | BinaryExpr op l r => visit_BinaryExpr ev op l r (accept ev l) (accept ev r)
  | EqualsExpr l r =>
      visit_EqualsExpr ev l r (visit_GridPoint ev l) (accept ev r)
  | CommutativeExpr op ops =>
      visit_CommutativeExpr ev op ops (map (accept ev) ops)
  end.

(** [for (auto ep : ops) ep->accept(this);] *)
Definition accept_each {St} (accs : list (St → St)) (s : St) : St :=
  foldl (λ t acc, acc t) s accs.

Section Base.
Context {St : Type}.

(** The bodies of the base class. *)
Definition ExprVisitor_visit_leaf {A} (_ : A) (s : St) : St := s.

Definition ExprVisitor_visit_UnaryExpr (_ : string) (_ : Expr)
  (accept_rhs : St → St) (s : St) : St :=
  accept_rhs s.

Definition ExprVisitor_visit_BinaryExpr (_ : string) (_ _ : Expr)
  (accept_lhs accept_rhs : St → St) (s : St) : St :=
  accept_rhs (accept_lhs s).

Definition ExprVisitor_visit_EqualsExpr (_ : GridPoint) (_ : Expr)
  (accept_lhs accept_rhs : St → St) (s : St) : St :=
  accept_rhs (accept_lhs s).

Definition ExprVisitor_visit_CommutativeExpr (_ : string) (_ : list Expr)
  (accept_ops : list (St → St)) (s : St) : St :=
  accept_each accept_ops s.

Definition ExprVisitor_base : ExprVisitor St := {|
  visit_ConstExpr := ExprVisitor_visit_leaf;
  visit_CodeExpr := ExprVisitor_visit_leaf;
  visit_GridPoint := ExprVisitor_visit_leaf;
  visit_UnaryExpr := ExprVisitor_visit_UnaryExpr;
  visit_BinaryExpr := ExprVisitor_visit_BinaryExpr;
  visit_EqualsExpr := ExprVisitor_visit_EqualsExpr;
  visit_CommutativeExpr := ExprVisitor_visit_CommutativeExpr;
|}.
End Base.

(** *** [class FpOpCounterVisitor : public ExprVisitor] *)

(** Conversions of the C++ integer types involved: [int] is 32 bits wide and
    [size_t] is 64. *)
Definition to_int (x : Z) : Z := (x + 2 ^ 31) mod 2 ^ 32 - 2 ^ 31.
Definition to_size_t (x : Z) : Z := x mod 2 ^ 64.

(** The state of the visitor is its only member, [int _numOps]. *)
Definition FpOpCounter_init : Z := 0.
Definition getNumOps (_numOps : Z) : Z := _numOps.

(** [_numOps++;] *)
Definition numOps_incr (_numOps : Z) : Z := to_int (_numOps + 1).

(** [_numOps += ops.size() - 1;], computed in [size_t] and stored back into
    the [int]. *)
Definition numOps_add_size_minus_1 (size : nat) (_numOps : Z) : Z :=
  to_int (to_size_t (to_size_t _numOps + to_size_t (Z.of_nat size - 1))).

Definition FpOpCounterVisitor : ExprVisitor Z := {|
  visit_ConstExpr := ExprVisitor_visit_leaf;
  visit_CodeExpr := ExprVisitor_visit_leaf;
  visit_GridPoint := ExprVisitor_visit_leaf;
  visit_UnaryExpr _ _ accept_rhs _numOps := accept_rhs (numOps_incr _numOps);
  visit_BinaryExpr _ _ _ accept_lhs accept_rhs _numOps :=
    accept_rhs (accept_lhs (numOps_incr _numOps));
  visit_EqualsExpr := ExprVisitor_visit_EqualsExpr;
  visit_CommutativeExpr _ ops accept_ops _numOps :=
    accept_each accept_ops (numOps_add_size_minus_1 (length ops) _numOps);
|}.

(** A client visitor that overrides the [GridPoint] overload of [visit] alone and collects the
    points it is handed, in order; it makes the traversal observable. *)
Definition PointLogVisitor : ExprVisitor (list GridPoint) := {|
  visit_ConstExpr := ExprVisitor_visit_leaf;
  visit_CodeExpr := ExprVisitor_visit_leaf;
  visit_GridPoint gp log := log ++ [gp];
  visit_UnaryExpr := ExprVisitor_visit_UnaryExpr;
  visit_BinaryExpr := ExprVisitor_visit_BinaryExpr;
  visit_EqualsExpr := ExprVisitor_visit_EqualsExpr;
  visit_CommutativeExpr := ExprVisitor_visit_CommutativeExpr;
|}.

(** *** What the op count is compared with *)

(** The operations one node stands for. *)
Definition node_ops (e : Expr) : Z :=
  match e with
  | UnaryExpr _ _ | BinaryExpr _ _ _ => 1
  | CommutativeExpr _ ops => Z.of_nat (length ops) - 1
  | ConstExpr _ | CodeExpr _ | GridPointExpr _ | EqualsExpr _ _ => 0
  end.

(** Every occurrence of a node in an expression, one entry per use site. *)
Fixpoint occurrences (e : Expr) : list Expr :=
  e :: match e with
       | UnaryExpr _ r => occurrences r
       | BinaryExpr _ l r => occurrences l ++ occurrences r
       | EqualsExpr l r => GridPointExpr l :: occurrences r
       | CommutativeExpr _ ops => concat (map occurrences ops)
       | ConstExpr _ | CodeExpr _ | GridPointExpr _ => []
       end.

Definition sum_Z (l : list Z) : Z := foldr Z.add 0 l.

Definition total_ops (e : Expr) : Z := sum_Z (map node_ops (occurrences e)).

(** Expressions built from unary and binary nodes over leaves only. *)
Fixpoint unary_binary_only (e : Expr) : bool :=
  match e with
  | ConstExpr _ | CodeExpr _ | GridPointExpr _ => true
  | UnaryExpr _ r => unary_binary_only r
  | BinaryExpr _ l r => unary_binary_only l && unary_binary_only r
  | EqualsExpr _ _ | CommutativeExpr _ _ => false
  end.

Definition is_unary_or_binary (e : Expr) : bool :=
  match e with UnaryExpr _ _ | BinaryExpr _ _ _ => true | _ => false end.

(** The number of unary and binary node occurrences. *)
Definition count_unary_binary (e : Expr) : nat :=
  length (filter (λ x, is_unary_or_binary x = true) (occurrences e)).

(** *** Expressions as linked nodes *)

(** The same node classes with their operands held by pointer: a node lives
    in a heap under its handle, and an operand is the handle of the operand
    node, which any number of parents may hold. *)
Inductive Node :=
| NConst (val : Z)
| NCode (code : string)
| NGridPoint (gp : GridPoint)
| NUnary (opStr : string) (rhs : nat)
| NBinary (opStr : string) (lhs rhs : nat)
| NEquals (lhs : GridPoint) (rhs : nat)
| NCommutative (opStr : string) (ops : list nat).

Abbreviation heap := (list Node).

Definition operands (nd : Node) : list nat :=
  match nd with
  | NConst _ | NCode _ | NGridPoint _ => []
  | NUnary _ rhs | NEquals _ rhs => [rhs]
  | NBinary _ lhs rhs => [lhs; rhs]
  | NCommutative _ ops => ops
  end.

(** A well-formed heap holds a DAG: an operand was built before the node
    that points to it. *)
Definition wf_heap (hp : heap) : Prop :=
  ∀ h nd, hp !! h = Some nd → Forall (λ c, (c < h)%nat) (operands nd).

(** The expression that hangs below a handle, every shared node repeated at
    each use. *)
Fixpoint expr_at (fuel : nat) (hp : heap) (h : nat) : option Expr :=
  match fuel with
  | O => None
  | S fuel' =>
      nd ← hp !! h;
      match nd with
      | NConst val => Some (ConstExpr val)
      | NCode code => Some (CodeExpr code)
      | NGridPoint gp => Some (GridPointExpr gp)
      | NUnary op rhs => r ← expr_at fuel' hp rhs; Some (UnaryExpr op r)
      | NBinary op lhs rhs =>
          l ← expr_at fuel' hp lhs; r ← expr_at fuel' hp rhs;
          Some (BinaryExpr op l r)
      | NEquals lhs rhs => r ← expr_at fuel' hp rhs; Some (EqualsExpr lhs r)
      | NCommutative op ops =>
          es ← mapM (expr_at fuel' hp) ops; Some (CommutativeExpr op es)
      end
  end.

(** [for (auto ep : ops) ep->accept(this);] over handles. *)
Definition visit_each (visit : nat → Z → option Z) (ops : list nat) (n : Z)
  : option Z :=
  foldl (λ acc c, acc ≫= visit c) (Some n) ops.

(** [FpOpCounterVisitor] run on the node under a handle, following the
    pointers; [fuel] bounds the depth, and a dangling handle is an error. *)
Fixpoint FpOpCounter_visit_at (fuel : nat) (hp : heap) (h : nat) (_numOps : Z)
  : option Z :=
  match fuel with
  | O => None
  | S fuel' =>
      nd ← hp !! h;
      match nd with
      | NConst _ | NCode _ | NGridPoint _ => Some _numOps
      | NUnary _ rhs =>
          FpOpCounter_visit_at fuel' hp rhs (numOps_incr _numOps)
      | NBinary _ lhs rhs =>
          n ← FpOpCounter_visit_at fuel' hp lhs (numOps_incr _numOps);
          FpOpCounter_visit_at fuel' hp rhs n
      | NEquals _ rhs => FpOpCounter_visit_at fuel' hp rhs _numOps
      | NCommutative _ ops =>
          visit_each (FpOpCounter_visit_at fuel' hp) ops
            (numOps_add_size_minus_1 (length ops) _numOps)
      end
  end.

End Visitor.

(** ** The pointer cache of [CppVecPrintHelper] ([Cpp.hpp]) *)

Module Cpp.
Import Grid.

(** [Dimensions], as far as [Cpp.hpp] looks into it. *)
Record Dimensions := { _innerDim : string }.

(** The members of [CppVecPrintHelper] that the pointer cache is made of, with
    the variable prefix and counter it inherits from [PrintHelper]. *)
Record CppVecPrintHelper := {
  _dims : Dimensions;
  _varPrefix : string;
  _varNum : nat;
  _vecPtrs : gmap GridPoint string;
  _ptrOfsLo : gmap string Z;
  _ptrOfsHi : gmap string Z;
}.

Definition getDims (h : CppVecPrintHelper) : Dimensions := _dims h.

(** A helper as its constructor leaves it: nothing cached. *)
Definition new_CppVecPrintHelper (dims : Dimensions) (varPrefix : string)
  : CppVecPrintHelper :=
  {| _dims := dims; _varPrefix := varPrefix; _varNum := 0;
     _vecPtrs := ∅; _ptrOfsLo := ∅; _ptrOfsHi := ∅ |}.

(** [makeBasePoint]: clone, then set the inner-dim index to 0. *)
Definition makeBasePoint (h : CppVecPrintHelper) (gp : GridPoint) : GridPoint :=
  let bgp := cloneGridPoint gp in
  let idi := {| is_name := _innerDim (getDims h); is_val := 0 |} in
  setArgConst bgp idi.

(** [savePointPtr]: [_vecPtrs[gp] = var;] *)
Definition savePointPtr (h : CppVecPrintHelper) (gp : GridPoint) (var : string)
  : CppVecPrintHelper :=
  {| _dims := _dims h; _varPrefix := _varPrefix h; _varNum := _varNum h;
     _vecPtrs := <[gp := var]> (_vecPtrs h);
     _ptrOfsLo := _ptrOfsLo h; _ptrOfsHi := _ptrOfsHi h |}.

(** [lookupPointPtr]: the cached name, or the null pointer. *)
Definition lookupPointPtr (h : CppVecPrintHelper) (gp : GridPoint)
  : option string :=
  if decide (is_Some (_vecPtrs h !! gp)) then _vecPtrs h !! gp else None.

(** Modelled from the spec: [PrintHelper::makeVarName] (Print.hpp is not among
    the sources) hands out a generated variable name, a new one at each call:
    the prefix followed by a running number. *)
Definition makeVarName (h : CppVecPrintHelper) : string * CppVecPrintHelper :=
  (_varPrefix h +:+ pretty (_varNum h),
   {| _dims := _dims h; _varPrefix := _varPrefix h; _varNum := S (_varNum h);
      _vecPtrs := _vecPtrs h;
      _ptrOfsLo := _ptrOfsLo h; _ptrOfsHi := _ptrOfsHi h |}).

(** The inner-dimension offset of an access. *)
Definition innerOffset (h : CppVecPrintHelper) (gp : GridPoint) : option Z :=
  match getArg gp (_innerDim (getDims h)) with
  | Some (IdxOffset ofs) => Some ofs
  | _ => None
  end.

(** Modelled from the spec: extending the observed low/high inner-dimension
    offset range of the pointer [p] by one more offset. *)
Definition extendPtrOfs (h : CppVecPrintHelper) (p : string) (ofs : Z)
  : CppVecPrintHelper :=
  {| _dims := _dims h; _varPrefix := _varPrefix h; _varNum := _varNum h;
     _vecPtrs := _vecPtrs h;
     _ptrOfsLo :=
       match _ptrOfsLo h !! p with
       | Some lo => if decide (ofs < lo) then <[p := ofs]> (_ptrOfsLo h)
                    else _ptrOfsLo h
       | None => <[p := ofs]> (_ptrOfsLo h)
       end;
     _ptrOfsHi :=
       match _ptrOfsHi h !! p with
       | Some hi => if decide (hi < ofs) then <[p := ofs]> (_ptrOfsHi h)
                    else _ptrOfsHi h
       | None => <[p := ofs]> (_ptrOfsHi h)
       end |}.

(** Modelled from the spec: the request for the aligned pointer of an access
    (the code that issues it is in Cpp.cpp, which is not among the sources):
    reuse the pointer variable cached for the access's base point or emit a
    new one and record it, then extend that entry's offset range. *)
Definition requestPointPtr (h : CppVecPrintHelper) (gp : GridPoint)
  : string * CppVecPrintHelper :=
  let bgp := makeBasePoint h gp in
  let '(p, h1) :=
    match lookupPointPtr h bgp with
    | Some p => (p, h)
    | None => let '(var, h') := makeVarName h in (var, savePointPtr h' bgp var)
    end in
  (p, match innerOffset h gp with
      | Some ofs => extendPtrOfs h1 p ofs
      | None => h1
      end).

(** A run of requests, as issued while one equation is generated. *)
Definition requestAll (h : CppVecPrintHelper) (gps : list GridPoint)
  : CppVecPrintHelper :=
  foldl (λ h gp, (requestPointPtr h gp).2) h gps.

(** The offsets requested from the pointer of base point [bgp]. *)
Definition requestedOffsets (h : CppVecPrintHelper) (bgp : GridPoint)
  (gps : list GridPoint) : list Z :=
  omap (λ gp, if decide (makeBasePoint h gp = bgp) then innerOffset h gp
              else None) gps.

Definition min_list (l : list Z) : option Z :=
  match l with [] => None | x :: l' => Some (foldl Z.min x l') end.
Definition max_list (l : list Z) : option Z :=
  match l with [] => None | x :: l' => Some (foldl Z.max x l') end.

End Cpp.

(** ** The finite-difference coefficient solver ([fd_coeff.cpp]) *)

Module FdCoeff.

(** The result of running code that indexes arrays: a value, or the first
    access that fell outside its array. *)
Inductive outcome (A : Type) :=
| Ok (a : A)
| OutOfBounds (array : string) (index : list Z).
Arguments Ok {A}.
Arguments OutOfBounds {A}.

#[global] Instance outcome_ret : MRet outcome := λ A a, Ok a.
#[global] Instance outcome_bind : MBind outcome := λ A B f x,
  match x with
  | Ok a => f a
  | OutOfBounds array index => OutOfBounds array index
  end.

(** [float]: IEEE 754 binary32, rounding to nearest even. *)
Abbreviation float := spec_float.
Definition fmul : float → float → float := SFmul 24 128.
Definition fsub : float → float → float := SFsub 24 128.
Definition fdiv : float → float → float := SFdiv 24 128.
Definition float_of_int (i : Z) : float := binary_normalize 24 128 i 0 false.

(** [#define MIN(x, y) (((x) < (y)) ? (x): (y))] *)
Definition MIN (x y : Z) : Z := if decide (x < y) then x else y.

(** [for (int i = lo; i <= hi; i++) body] *)
Fixpoint for_count {St} (k : nat) (i : Z) (body : Z → St → outcome St)
  (s : St) : outcome St :=
  match k with
  | O => Ok s
  | S k' => s' ← body i s; for_count k' (i + 1) body s'
  end.
Definition for_upto {St} (lo hi : Z) (body : Z → St → outcome St) (s : St)
  : outcome St :=
  for_count (Z.to_nat (hi + 1 - lo)) lo body s.

(** A one-dimensional array of [float]s with checked indexing. *)
Definition arr_get (name : string) (a : list float) (i : Z) : outcome float :=
  if decide (0 ≤ i) then
    match a !! Z.to_nat i with
    | Some x => Ok x
    | None => OutOfBounds name [i]
    end
  else OutOfBounds name [i].

Definition arr_set (name : string) (a : list float) (i : Z) (x : float)
  : outcome (list float) :=
  if decide (0 ≤ i < Z.of_nat (length a)) then Ok (<[Z.to_nat i := x]> a)
  else OutOfBounds name [i].

(** The locals of [fd_coeff] and the array it fills.  [d] holds the cells
    written since the [memset]; a cell not in it is still zero. *)
Record locals := {
  d : gmap (Z * Z * Z) float;
  c1 : float;
  c2 : float;
  c3 : float;
  coeff : list float;
}.

Definition set_d (s : locals) (d' : gmap (Z * Z * Z) float) : locals :=
  {| d := d'; c1 := c1 s; c2 := c2 s; c3 := c3 s; coeff := coeff s |}.
Definition set_c1 (s : locals) (x : float) : locals :=
  {| d := d s; c1 := x; c2 := c2 s; c3 := c3 s; coeff := coeff s |}.
Definition set_c2 (s : locals) (x : float) : locals :=
  {| d := d s; c1 := c1 s; c2 := x; c3 := c3 s; coeff := coeff s |}.
Definition set_c3 (s : locals) (x : float) : locals :=
  {| d := d s; c1 := c1 s; c2 := c2 s; c3 := x; coeff := coeff s |}.
Definition set_coeff (s : locals) (a : list float) : locals :=
  {| d := d s; c1 := c1 s; c2 := c2 s; c3 := c3 s; coeff := a |}.

Section fd_coeff.
Variable eval_point : float.
Variable order : Z.
Variable points : list float.
Variable num_points : Z.

(** [float d[order+1][num_points][num_points]]: each index has its own
    bound. *)
Definition d_in_bounds (m n v : Z) : Prop :=
  0 ≤ m < order + 1 ∧ 0 ≤ n < num_points ∧ 0 ≤ v < num_points.

Definition d_get (s : locals) (m n v : Z) : outcome float :=
  if decide (d_in_bounds m n v) then
    Ok (default (S754_zero false) (d s !! (m, n, v)))
  else OutOfBounds "d" [m; n; v].

Definition d_set (s : locals) (m n v : Z) (x : float) : outcome locals :=
  if decide (d_in_bounds m n v) then Ok (set_d s (<[(m, n, v) := x]> (d s)))
  else OutOfBounds "d" [m; n; v].

(** The body of the innermost loop over [m], for a point [v] before [n]. *)
Definition lower_step (n v m : Z) (s : locals) : outcome locals :=
  pn ← arr_get "points" points n;
  dm ← d_get s m (n - 1) v;
  dm1 ← d_get s (m - 1) (n - 1) v;
  s ← d_set s m n v
        (fsub (fmul (fsub pn eval_point) dm) (fmul (float_of_int m) dm1));
  cur ← d_get s m n v;
  d_set s m n v (fmul cur (fdiv (float_of_int 1) (c3 s))).

(** The body of the loop over [m] for the diagonal cell [d[m][n][n]]. *)
Definition diag_step (n m : Z) (s : locals) : outcome locals :=
  dm1 ← d_get s (m - 1) (n - 1) (n - 1);
  pn1 ← arr_get "points" points (n - 1);
  dm ← d_get s m (n - 1) (n - 1);
  s ← d_set s m n n
        (fsub (fmul (float_of_int m) dm1) (fmul (fsub pn1 eval_point) dm));
  cur ← d_get s m n n;
  d_set s m n n (fmul cur (fdiv (c1 s) (c2 s))).

(** The body of the loop over [v]. *)
Definition v_step (n v : Z) (s : locals) : outcome locals :=
  pn ← arr_get "points" points n;
  pv ← arr_get "points" points v;
  let s := set_c3 s (fsub pn pv) in
  let s := set_c2 s (fmul (c2 s) (c3 s)) in
  for_upto 0 (MIN n order) (lower_step n v) s.

(** The body of the outermost loop over [n]. *)
Definition n_step (n : Z) (s : locals) : outcome locals :=
  let s := set_c2 s (float_of_int 1) in
  s ← for_upto 0 (n - 1) (v_step n) s;
  s ← for_upto 0 (MIN n order) (diag_step n) s;
  Ok (set_c1 s (c2 s)).

(** [void fd_coeff(float *coeff, float eval_point, int order, float points[],
    int num_points)]; the result is the [coeff] array as the call leaves it. *)
Definition fd_coeff (coeff0 : list float) : outcome (list float) :=
  let s := {| d := ∅; c1 := S754_zero false; c2 := S754_zero false;
              c3 := S754_zero false; coeff := coeff0 |} in
  s ← d_set s 0 0 0 (float_of_int 1);
  let s := set_c1 s (float_of_int 1) in
  s ← for_upto 1 (num_points - 1) n_step s;
  s ← for_upto 0 (num_points - 1)
        (λ i s, x ← d_get s order (num_points - 1) i;
                a ← arr_set "coeff" (coeff s) i x;
                Ok (set_coeff s a)) s;
  Ok (coeff s).

End fd_coeff.
End FdCoeff.

(** ** Statements about registers *)

Module RealvSpec.
Import Realv.

(** The lanes a guarded move leaves in the destination: lane [i] of
    [lo..hi-1] whose guard is on gets [new i], every other lane keeps what
    [old] has. *)
Definition lanes_after (g : Z → option bool) (lo hi : Z) (new : Z → option Z)
  (old r : realv) : Prop :=
  length r = length old ∧
  ∀ i, rd r i = if decide (lo ≤ i < hi) then
                  match g i with Some true => new i | _ => rd old i end
                else rd old i.

(** Three registers of four lanes, under the addresses 0, 1 and 2. *)
Definition align_example : mem :=
  {[ 0%nat := [0; 0; 0; 0]; 1%nat := [50; 60; 70; 80];
     2%nat := [10; 20; 30; 40] ]}.


(** One-lane registers for [realv_permute2]: destination, control, the two
    inputs. *)
Definition permute2_example : mem :=
  {[ 0%nat := [0]; 1%nat := [1]; 2%nat := [7]; 3%nat := [9] ]}.

(** Lanes [lo..k-1] of [a] and [b] are pairwise neither less nor greater:
    equal, or unordered because one of them is a NaN. *)
Definition passed_over (rb : real_bytes) (a b : realv) (lo k : Z) : Prop :=
  ∀ i x y, lo ≤ i < k → rd a i = Some x → rd b i = Some y →
           REAL_lt rb x y = false ∧ REAL_gt rb x y = false.

(** Some lane [k] of [lo..hi-1] has [rel] between [a] and [b], and all lanes
    before it are passed over. *)
Definition decided_at (rb : real_bytes) (rel : Z → Z → bool) (a b : realv)
  (lo hi : Z) : Prop :=
  ∃ k x y, lo ≤ k < hi ∧ rd a k = Some x ∧ rd b k = Some y ∧
           rel x y = true ∧ passed_over rb a b lo k.

(** Lane [k], holding [x] in [a] and [y] in [b], is the first lane at which
    [a] and [b] differ ([!=]). *)
Definition first_differing (rb : real_bytes) (a b : realv) (k x y : Z)
  : Prop :=
  0 ≤ k ∧ rd a k = Some x ∧ rd b k = Some y ∧ REAL_ne rb x y = true ∧
  ∀ i x' y', 0 ≤ i < k → rd a i = Some x' → rd b i = Some y' →
             REAL_ne rb x' y' = false.

(** Every lane of [a] is [==] to the same lane of [b]. *)
Definition lanes_equal (rb : real_bytes) (a b : realv) : Prop :=
  ∀ i x y, rd a i = Some x → rd b i = Some y → REAL_ne rb x y = false.

Definition no_NaN (rb : real_bytes) (a : realv) : Prop :=
  Forall (λ x, REAL_of_bits rb x ≠ S754_nan) a.

(** Bit patterns of some [float]s. *)
Definition float_pos_zero : Z := 0x00000000.
Definition float_neg_zero : Z := 0x80000000.
Definition float_NaN : Z := 0x7fc00000.
Definition float_1 : Z := 0x3f800000.
Definition float_2 : Z := 0x40000000.
Definition float_5 : Z := 0x40a00000.

End RealvSpec.

(** ** Statements about visitors *)

Module VisitorSpec.
Import Grid Visitor.

(** The machine range of an [int]. *)
Definition is_int (x : Z) : Prop := - 2 ^ 31 ≤ x < 2 ^ 31.

(** A grid [data(t, x)] and its point [data(t+1, x)]. *)
Definition data_grid : Grid :=
  {| grid_name := "data"; grid_dims := ["t"; "x"] |}.
Definition data_t1_x : GridPoint :=
  {| gp_grid := data_grid; gp_args := [IdxOffset 1; IdxOffset 0] |}.
Definition data_t_x1 : GridPoint :=
  {| gp_grid := data_grid; gp_args := [IdxOffset 0; IdxOffset 1] |}.

(** [data(t+1,x) = -(data(t,x+1) - 2)], and a sum of three operands. *)
Definition nested_example : Expr :=
  UnaryExpr "-" (BinaryExpr "-" (GridPointExpr data_t_x1) (ConstExpr 2)).
Definition equation_example : Expr := EqualsExpr data_t1_x nested_example.
Definition sum_example : Expr :=
  CommutativeExpr "+"
    [GridPointExpr data_t_x1; ConstExpr 2; GridPointExpr data_t1_x].

(** A heap in which the sum of three operands, node 3, is both operands of
    the division, node 4. *)
Definition shared_heap : heap :=
  [NGridPoint data_t_x1; NConst 2; NGridPoint data_t1_x;
   NCommutative "+" [0; 1; 2]%nat; NBinary "/" 3%nat 3%nat].

End VisitorSpec.

(** ** Statements about the pointer cache *)

Module CppSpec.
Import Grid Cpp.

(** What holds of a helper [h] that started as [h0] and has served the
    requests [done]: the generated names are the prefix and a number below
    the counter, no two base points share a name, only names of cached
    pointers have an offset range, the base point of every request is cached,
    and the range recorded for a pointer is the least and the greatest of the
    offsets requested from it. *)
Record cache_inv (h0 h : CppVecPrintHelper) (done : list GridPoint) : Prop := {
  inv_dims : _dims h = _dims h0;
  inv_prefix : _varPrefix h = _varPrefix h0;
  inv_names : ∀ bgp p, _vecPtrs h !! bgp = Some p →
                ∃ k, (k < _varNum h)%nat ∧ p = _varPrefix h0 +:+ pretty k;
  inv_inj : ∀ b1 b2 p, _vecPtrs h !! b1 = Some p → _vecPtrs h !! b2 = Some p →
              b1 = b2;
  inv_lo_dom : ∀ p, is_Some (_ptrOfsLo h !! p) →
                 ∃ bgp, _vecPtrs h !! bgp = Some p;
  inv_hi_dom : ∀ p, is_Some (_ptrOfsHi h !! p) →
                 ∃ bgp, _vecPtrs h !! bgp = Some p;
  inv_cached : ∀ gp, gp ∈ done → is_Some (_vecPtrs h !! makeBasePoint h0 gp);
  inv_range : ∀ bgp p, _vecPtrs h !! bgp = Some p →
                _ptrOfsLo h !! p = min_list (requestedOffsets h0 bgp done) ∧
                _ptrOfsHi h !! p = max_list (requestedOffsets h0 bgp done);
}.

(** A grid [u(t, x, y)], inner dimension [x], folded 4 by 2. *)
Definition u_grid : Grid :=
  {| grid_name := "u"; grid_dims := ["t"; "x"; "y"] |}.
Definition u_at (t x y : Z) : GridPoint :=
  {| gp_grid := u_grid; gp_args := [IdxOffset t; IdxOffset x; IdxOffset y] |}.
Definition dims_x : Dimensions := {| _innerDim := "x" |}.
Definition fold_4x2 : FoldShape := [("x", 4); ("y", 2)].
Definition helper_example : CppVecPrintHelper :=
  new_CppVecPrintHelper dims_x "temp".

(** Four reads, three of them along [x] from one base point. *)
Definition requests_example : list GridPoint :=
  [u_at 0 1 0; u_at 0 (-1) 0; u_at 0 2 1; u_at 0 0 0].

End CppSpec.

(** ** Statements about the coefficient solver *)

Module FdCoeffSpec.
Import FdCoeff.

(** The call [fd_coeff(coeff, 0.0f, 1, {0.0f, 1.0f}, 2)]: the first
    derivative at 0 from the two points 0 and 1. *)
Definition zero : float := S754_zero false.
Definition points_0_1 : list float := [float_of_int 0; float_of_int 1].
Definition coeff_2 : list float := [zero; zero].

End FdCoeffSpec.

(** ** More of [realv.hpp]: whole-register moves and the tolerance test *)

Module RealvOps.
Import Realv.

Section Ops.
Variable VLEN : Z.

(** [inline void copy(const realv& rhs)] *)
Definition copy (this rhs : nat) (m : mem) : option mem :=
  for_loop 0 VLEN (λ i m, x ← load m rhs i; store m this i x) m.

(** [inline void operator=(REAL val)]: broadcast. *)
Definition assign_REAL (this : nat) (val : Z) (m : mem) : option mem :=
  for_loop 0 VLEN (λ i m, store m this i val) m.

(** [inline void loadFrom(const realv* from)] *)
Definition loadFrom (this from : nat) (m : mem) : option mem :=
  for_loop 0 VLEN (λ i m, x ← load m from i; store m this i x) m.

(** [inline void storeTo(realv* to) const] *)
Definition storeTo (this to : nat) (m : mem) : option mem :=
  for_loop 0 VLEN (λ i m, x ← load m this i; store m to i x) m.

(** The scalar [within_tolerance(val, ref, epsilon)] is declared elsewhere. *)
Variable within_tolerance_REAL : Z → Z → Z → bool.

(** [inline bool within_tolerance(const realv& val, const realv& ref,
    const realv& epsilon)] *)
Fixpoint within_tolerance_from (n : nat) (j : Z) (val ref epsilon : realv)
  : option bool :=
  match n with
  | O => Some true
  | S n' =>
      x ← rd val j; y ← rd ref j; e ← rd epsilon j;
      if negb (within_tolerance_REAL x y e) then Some false
      else within_tolerance_from n' (j + 1) val ref epsilon
  end.
Definition within_tolerance (val ref epsilon : realv) : option bool :=
  within_tolerance_from (Z.to_nat VLEN) 0 val ref epsilon.

End Ops.

(** [inline realv operator-() const].  The emulation negates lane by lane,
    [SIMD_LOOP(i) res[i] = -r[i];]: the unary minus of a [REAL] inverts the
    sign bit of the lane and keeps every other bit, of a NaN as well. *)
Definition REAL_sign_bit (rb : real_bytes) : Z := 2 ^ (REAL_bits rb - 1).

Definition negate_emulated (rb : real_bytes) (r : realv) : realv :=
  (λ x, Z.lxor x (REAL_sign_bit rb)) <$> r.

(** With intrinsics it is [_mm512_sub_ps(_mm512_setzero_ps(), this->m512r)]
    (or the [_pd] pair): every lane subtracted from [+0.0], in IEEE
    arithmetic rounding to nearest.  These are the values of the lanes of the
    result; of a NaN lane the value says only that the result is a NaN, not
    which one. *)
Definition negate_intrinsics (rb : real_bytes) (r : realv)
  : list spec_float :=
  (λ x, SFsub (REAL_prec rb) (REAL_emax rb) (S754_zero false)
          (REAL_of_bits rb x)) <$> r.

End RealvOps.

(** ** Statements about the rest of the code *)

Module MoreSpec.
Import Realv RealvSpec Grid Visitor.

(** Four registers of four lanes: a value, a control that reverses the
    lanes, and two more values. *)
Definition four_regs : mem :=
  {[ 0%nat := [10; 20; 30; 40]; 1%nat := [3; 2; 1; 0];
     2%nat := [50; 60; 70; 80]; 3%nat := [1; 2; 3; 4] ]}.

(** The leaves of an expression. *)
Inductive Leaf :=
| LConst (val : Z)
| LCode (code : string)
| LGridPoint (gp : GridPoint).

(** The leaf occurrences of an expression from left to right, the left-hand
    point of an equation before its right-hand side. *)
Fixpoint leaves (e : Expr) : list Leaf :=
  match e with
  | ConstExpr val => [LConst val]
  | CodeExpr code => [LCode code]
  | GridPointExpr gp => [LGridPoint gp]
  | UnaryExpr _ rhs => leaves rhs
  | BinaryExpr _ lhs rhs => leaves lhs ++ leaves rhs
  | EqualsExpr lhs rhs => LGridPoint lhs :: leaves rhs
  | CommutativeExpr _ ops => concat (map leaves ops)
  end.

(** The [visit] a visitor has for a leaf. *)
Definition visit_Leaf {St} (ev : ExprVisitor St) (l : Leaf) : St → St :=
  match l with
  | LConst val => visit_ConstExpr ev val
  | LCode code => visit_CodeExpr ev code
  | LGridPoint gp => visit_GridPoint ev gp
  end.

(** A visitor that keeps the base class's [visit] for every inner node. *)
Definition inner_visits_inherited {St} (ev : ExprVisitor St) : Prop :=
  visit_UnaryExpr ev = ExprVisitor_visit_UnaryExpr
  ∧ visit_BinaryExpr ev = ExprVisitor_visit_BinaryExpr
  ∧ visit_EqualsExpr ev = ExprVisitor_visit_EqualsExpr
  ∧ visit_CommutativeExpr ev = ExprVisitor_visit_CommutativeExpr.

(** The operands [e, es] combined by binary nodes, nested to the right. *)
Fixpoint binary_chain (op : string) (e : Expr) (es : list Expr) : Expr :=
  match es with
  | [] => e
  | e' :: es' => BinaryExpr op e (binary_chain op e' es')
  end.

End MoreSpec.

(** * Properties *)

(** ** Loops *)

Section ForLoopFacts.
Context {St : Type}.
Implicit Types (body : Z → St → option St) (s : St).

Lemma for_range_ext body1 body2 n i s :
  (∀ j t, i ≤ j < i + Z.of_nat n → body1 j t = body2 j t) →
  for_range n i body1 s = for_range n i body2 s.
Proof.
  revert i s. induction n as [|n IH]; intros i s Hb; [done|].
  cbn [for_range]. rewrite Hb by lia.
  destruct (body2 i s) as [s'|]; [|done]. cbn.
  apply IH. intros j t Hj. apply Hb. lia.
Qed.

Lemma for_range_inv (Inv : Z → St → Prop) body n lo s :
  Inv lo s →
  (∀ j t, lo ≤ j < lo + Z.of_nat n → Inv j t →
          ∃ t', body j t = Some t' ∧ Inv (j + 1) t') →
  ∃ s', for_range n lo body s = Some s' ∧ Inv (lo + Z.of_nat n) s'.
Proof.
  revert lo s. induction n as [|n IH]; intros lo s H0 Hstep.
  - exists s. split; [done|]. by replace (lo + Z.of_nat 0) with lo by lia.
  - destruct (Hstep lo s) as (t & Ht & HI); [lia|done|].
    destruct (IH (lo + 1) t) as (s' & Hs' & HI'); [done| |].
    + intros j u Hj. apply Hstep. lia.
    + exists s'. cbn [for_range]. rewrite Ht. cbn. split; [done|].
      by replace (lo + Z.of_nat (S n)) with (lo + 1 + Z.of_nat n) by lia.
Qed.

Lemma for_loop_inv (Inv : Z → St → Prop) body lo hi s :
  lo ≤ hi → Inv lo s →
  (∀ j t, lo ≤ j < hi → Inv j t →
          ∃ t', body j t = Some t' ∧ Inv (j + 1) t') →
  ∃ s', for_loop lo hi body s = Some s' ∧ Inv hi s'.
Proof.
  intros Hle H0 Hstep. unfold for_loop.
  destruct (for_range_inv Inv body (Z.to_nat (hi - lo)) lo s)
    as (s' & Hs' & HI); [done| |].
  - intros j t Hj. apply Hstep. lia.
  - exists s'. split; [done|].
    by replace (lo + Z.of_nat (Z.to_nat (hi - lo))) with hi in HI by lia.
Qed.

Lemma for_loop_ext body1 body2 lo hi s :
  (∀ j t, lo ≤ j < hi → body1 j t = body2 j t) →
  for_loop lo hi body1 s = for_loop lo hi body2 s.
Proof.
  intros Hb. unfold for_loop. apply for_range_ext.
  intros j t Hj. apply Hb. lia.
Qed.

Lemma for_loop_empty body lo hi s : hi ≤ lo → for_loop lo hi body s = Some s.
Proof.
  intros Hle. unfold for_loop. by replace (Z.to_nat (hi - lo)) with O by lia.
Qed.
End ForLoopFacts.

(** ** Vector registers *)

Module RealvProofs.
Import Realv RealvSpec.

Lemma rd_lookup (v : realv) (i : Z) :
  0 ≤ i → rd v i = v !! Z.to_nat i.
Proof. intros Hi. unfold rd. by rewrite decide_True. Qed.

Lemma rd_neg (v : realv) (i : Z) : i < 0 → rd v i = None.
Proof. intros Hi. unfold rd. rewrite decide_False; [done|lia]. Qed.

Lemma rd_is_Some (v : realv) (i : Z) :
  0 ≤ i < Z.of_nat (length v) → is_Some (rd v i).
Proof.
  intros Hi. rewrite rd_lookup by lia. apply lookup_lt_is_Some. lia.
Qed.

Lemma rd_beyond (v : realv) (i : Z) :
  Z.of_nat (length v) ≤ i → rd v i = None.
Proof.
  intros Hi. rewrite rd_lookup by lia. apply lookup_ge_None. lia.
Qed.

Lemma rd_insert (v : realv) (i j x : Z) :
  0 ≤ j < Z.of_nat (length v) →
  rd (<[Z.to_nat j := x]> v) i = if decide (i = j) then Some x else rd v i.
Proof.
  intros Hj. destruct (decide (i = j)) as [->|Hne].
  - rewrite rd_lookup by lia. apply list_lookup_insert_eq. lia.
  - destruct (decide (0 ≤ i)) as [Hi|Hi].
    + rewrite !rd_lookup by lia. apply list_lookup_insert_ne. lia.
    + rewrite !rd_neg by lia. done.
Qed.

Lemma rd_ext (v w : realv) :
  length v = length w → (∀ i, rd v i = rd w i) → v = w.
Proof.
  intros Hlen Hrd. apply list_eq. intros n.
  specialize (Hrd (Z.of_nat n)). rewrite !rd_lookup in Hrd by lia.
  by rewrite Nat2Z.id in Hrd.
Qed.

Lemma load_at (m : mem) (a : nat) (v : realv) (i : Z) :
  m !! a = Some v → load m a i = rd v i.
Proof. intros Ha. unfold load. by rewrite Ha. Qed.

Lemma store_at (m : mem) (a : nat) (v : realv) (i x : Z) :
  m !! a = Some v → 0 ≤ i < Z.of_nat (length v) →
  store m a i x = Some (<[a := <[Z.to_nat i := x]> v]> m).
Proof.
  intros Ha Hi. unfold store, wr. rewrite Ha. cbn. by rewrite decide_True.
Qed.

Lemma lanes_after_start g lo new old : lanes_after g lo lo new old old.
Proof.
  split; [done|]. intros i. rewrite decide_False; [done|lia].
Qed.

Lemma lanes_after_skip g lo j new old r :
  lo ≤ j → g j = Some false →
  lanes_after g lo j new old r → lanes_after g lo (j + 1) new old r.
Proof.
  intros Hlo Hg [Hlen Hr]. split; [done|]. intros i. rewrite Hr.
  destruct (decide (i = j)) as [->|Hne].
  - rewrite decide_False by lia. rewrite decide_True by lia. by rewrite Hg.
  - destruct (decide (lo ≤ i < j)); [rewrite decide_True by lia|
                                       rewrite decide_False by lia]; done.
Qed.

Lemma lanes_after_write g lo j new old r x :
  lo ≤ j → 0 ≤ j < Z.of_nat (length old) → g j = Some true → new j = Some x →
  lanes_after g lo j new old r →
  lanes_after g lo (j + 1) new old (<[Z.to_nat j := x]> r).
Proof.
  intros Hlo Hj Hg Hx [Hlen Hr]. split; [by rewrite length_insert|].
  intros i. rewrite rd_insert by lia.
  destruct (decide (i = j)) as [->|Hne].
  - rewrite decide_True by lia. by rewrite Hg.
  - rewrite Hr.
    destruct (decide (lo ≤ i < j)); [rewrite decide_True by lia|
                                       rewrite decide_False by lia]; done.
Qed.

(** A guarded lane-by-lane copy [res.r[i] = src.r[i + d]] through the store.
    [src] may be the very object [res] as long as the copy moves lanes
    downwards. *)
Lemma copy_loop (g : Z → option bool) (res src : nat) (d lo hi : Z)
    (m : mem) (r0 s0 : realv) :
  m !! res = Some r0 → m !! src = Some s0 →
  0 ≤ lo ≤ hi → hi ≤ Z.of_nat (length r0) →
  (∀ i, lo ≤ i < hi → ∃ b, g i = Some b ∧
        (b = true → 0 ≤ i + d < Z.of_nat (length s0))) →
  (src = res → 0 ≤ d) →
  ∃ r, for_loop lo hi
         (λ i m, b ← g i;
                 if b : bool then x ← load m src (i + d); store m res i x
                 else Some m) m = Some (<[res := r]> m)
       ∧ lanes_after g lo hi (λ i, rd s0 (i + d)) r0 r.
Proof.
  intros Hres Hsrc Hlohi Hhi Hg Halias.
  pose (Inv := λ (j : Z) (t : mem),
         ∃ r, t = <[res := r]> m ∧
              lanes_after g lo j (λ i, rd s0 (i + d)) r0 r).
  destruct (for_loop_inv Inv
              (λ i m, b ← g i;
                      if b : bool then x ← load m src (i + d); store m res i x
                      else Some m) lo hi m) as (t & Ht & r & -> & Hr);
    [lia| | |by eauto].
  - exists r0. split; [by rewrite insert_id|]. apply lanes_after_start.
  - intros j t Hj (r & -> & Hr).
    destruct (Hg j Hj) as (b & Hb & Hin). rewrite Hb. cbn.
    destruct b.
    + specialize (Hin eq_refl).
      assert (load (<[res := r]> m) src (j + d) = rd s0 (j + d)) as Hload.
      { destruct (decide (src = res)) as [->|Hne].
        - rewrite (load_at _ _ r) by apply lookup_insert_eq.
          assert (s0 = r0) as -> by congruence.
          destruct Hr as [_ Hr]. rewrite Hr.
          rewrite decide_False; [done|]. specialize (Halias eq_refl). lia.
        - apply load_at. by rewrite lookup_insert_ne. }
      rewrite Hload.
      destruct (rd_is_Some s0 (j + d) Hin) as [x Hx]. rewrite Hx. cbn.
      rewrite (store_at _ _ r) by
        (try apply lookup_insert_eq; destruct Hr as [-> _]; lia).
      rewrite insert_insert_eq.
      eexists. split; [done|]. eexists. split; [done|].
      apply lanes_after_write; [lia|lia|done|done|done].
    + eexists. split; [done|]. exists r. split; [done|].
      apply lanes_after_skip; [lia|done|done].
Qed.

Lemma lanes_after_always lo hi new old r :
  lanes_after (λ _, Some true) lo hi new old r →
  ∀ i, rd r i = if decide (lo ≤ i < hi) then new i else rd old i.
Proof. intros [_ Hr] i. apply Hr. Qed.

Lemma rd_app (v w : realv) (i : Z) :
  0 ≤ i →
  rd (v ++ w) i = if decide (i < Z.of_nat (length v)) then rd v i
                  else rd w (i - Z.of_nat (length v)).
Proof.
  intros Hi. destruct (decide (i < Z.of_nat (length v))).
  - rewrite !rd_lookup by lia. apply lookup_app_l. lia.
  - rewrite !rd_lookup by lia. rewrite lookup_app_r by lia.
    f_equal. lia.
Qed.

(** Both loops of the lane rotate, under any guard on the lanes. *)
Lemma align_loops (g : Z → option bool) (VLEN : Z) (res v2 v3 : nat)
    (count : Z) (m : mem) (r0 a b : realv) :
  m !! res = Some r0 → m !! v2 = Some a → m !! v3 = Some b →
  wf_realv VLEN r0 → wf_realv VLEN a → wf_realv VLEN b →
  res ≠ v2 → 0 ≤ count ≤ VLEN →
  (∀ i, 0 ≤ i < VLEN → is_Some (g i)) →
  ∃ r, (m1 ← for_loop 0 (VLEN - count)
               (λ i m, b ← g i;
                       if b : bool then
                         x ← load m v3 (i + count); store m res i x
                       else Some m) m;
        for_loop (VLEN - count) VLEN
          (λ i m, b ← g i;
                  if b : bool then
                    x ← load m v2 (i + count - VLEN); store m res i x
                  else Some m) m1) = Some (<[res := r]> m)
       ∧ lanes_after g 0 VLEN (λ i, rd (b ++ a) (i + count)) r0 r.
Proof.
  unfold wf_realv. intros Hres Hv2 Hv3 Hr0 Ha Hb Hne Hcount Hg.
  destruct (copy_loop g res v3 count 0 (VLEN - count) m r0 b)
    as (r1 & -> & Hlen1 & Hr1); [done|done|lia|lia| |lia|].
  { intros i Hi. destruct (Hg i) as [c Hc]; [lia|]. exists c. split; [done|lia]. }
  cbn.
  destruct (copy_loop g res v2 (count - VLEN) (VLEN - count) VLEN
              (<[res := r1]> m) r1 a)
    as (r2 & Hloop & Hlen2 & Hr2);
    [apply lookup_insert_eq|by rewrite lookup_insert_ne|lia|lia| |done|].
  { intros i Hi. destruct (Hg i) as [c Hc]; [lia|]. exists c. split; [done|lia]. }
  exists r2. split.
  - rewrite insert_insert_eq in Hloop. rewrite <- Hloop.
    apply for_loop_ext. intros j t Hj.
    by replace (j + count - VLEN) with (j + (count - VLEN)) by lia.
  - split; [congruence|]. intros i. rewrite Hr2, Hr1.
    destruct (decide (0 ≤ i < VLEN)) as [Hi|Hi].
    + rewrite rd_app by lia.
      destruct (decide (VLEN - count ≤ i < VLEN)).
      * rewrite (decide_False (P := i + count < _)) by lia.
        replace (i + count - Z.of_nat (length b)) with (i + (count - VLEN))
          by lia.
        rewrite (decide_False (P := 0 ≤ i < VLEN - count)) by lia. done.
      * rewrite (decide_True (P := 0 ≤ i < VLEN - count)) by lia.
        rewrite (decide_True (P := i + count < _)) by lia. done.
    + rewrite (decide_False (P := VLEN - count ≤ i < VLEN)) by lia.
      rewrite (decide_False (P := 0 ≤ i < VLEN - count)) by lia. done.
Qed.

Lemma realv_align_lanes (VLEN : Z) (res v2 v3 : nat) (count : Z) (m : mem)
    (r0 a b : realv) :
  m !! res = Some r0 → m !! v2 = Some a → m !! v3 = Some b →
  wf_realv VLEN r0 → wf_realv VLEN a → wf_realv VLEN b →
  res ≠ v2 → 0 ≤ count ≤ VLEN →
  ∃ r, realv_align VLEN res v2 v3 count m = Some (<[res := r]> m)
       ∧ wf_realv VLEN r
       ∧ ∀ i, 0 ≤ i < VLEN → rd r i = rd (b ++ a) (i + count).
Proof.
  intros Hres Hv2 Hv3 Hr0 Ha Hb Hne Hcount.
  destruct (align_loops (λ _, Some true) VLEN res v2 v3 count m r0 a b)
    as (r & Hr & Hlen & Hlanes); [done..|by eauto|].
  exists r. split; [exact Hr|]. split.
  - unfold wf_realv in *. congruence.
  - intros i Hi. rewrite Hlanes. by rewrite decide_True.
Qed.





(** The same call by evaluation: when [res] is the object [v2], the window
    of [(10, 20, 30, 40)] followed by [(50, 60, 70, 80)] at offset 3 is
    [(40, 50, 60, 70)] and the call leaves [(40, 40, 40, 40)]. *)
Example realv_align_res_is_v2 :
  realv_align 4 1 1 2 3 align_example ≫= (λ m, m !! 1%nat)
  = Some [40; 40; 40; 40].
Proof. reflexivity. Qed.

(** A guarded lane-by-lane gather [res.r[i] = f(ctrl.ci[i])] through the
    store, [f] reading local copies only.  [ctrl] may be the object [res]:
    lane [i] of [ctrl] is read before lane [i] of [res] is written. *)
Lemma gather_loop (g : Z → option bool) (f : Z → option Z) (res ctrl : nat)
    (lo hi : Z) (m : mem) (r0 c0 : realv) :
  m !! res = Some r0 → m !! ctrl = Some c0 →
  0 ≤ lo ≤ hi → hi ≤ Z.of_nat (length r0) →
  (∀ i, lo ≤ i < hi → ∃ b, g i = Some b ∧
        (b = true → is_Some (rd c0 i ≫= f))) →
  ∃ r, for_loop lo hi
         (λ i m, b ← g i;
                 if b : bool then
                   c ← load m ctrl i; x ← f c; store m res i x
                 else Some m) m = Some (<[res := r]> m)
       ∧ lanes_after g lo hi (λ i, rd c0 i ≫= f) r0 r.
Proof.
  intros Hres Hctrl Hlohi Hhi Hg.
  pose (Inv := λ (j : Z) (t : mem),
         ∃ r, t = <[res := r]> m ∧
              lanes_after g lo j (λ i, rd c0 i ≫= f) r0 r).
  destruct (for_loop_inv Inv
              (λ i m, b ← g i;
                      if b : bool then
                        c ← load m ctrl i; x ← f c; store m res i x
                      else Some m) lo hi m) as (t & Ht & r & -> & Hr);
    [lia| | |by eauto].
  - exists r0. split; [by rewrite insert_id|]. apply lanes_after_start.
  - intros j t Hj (r & -> & Hr).
    destruct (Hg j Hj) as (b & Hb & Hin). rewrite Hb. cbn.
    destruct b.
    + destruct (Hin eq_refl) as [x Hx].
      assert (load (<[res := r]> m) ctrl j = rd c0 j) as Hload.
      { destruct (decide (ctrl = res)) as [->|Hne].
        - rewrite (load_at _ _ r) by apply lookup_insert_eq.
          assert (c0 = r0) as -> by congruence.
          destruct Hr as [_ Hr]. rewrite Hr.
          rewrite decide_False; [done|lia].
        - apply load_at. by rewrite lookup_insert_ne. }
      rewrite Hload.
      destruct (rd c0 j) as [c|] eqn:Hc; [|done]. cbn in Hx |- *.
      rewrite Hx. cbn.
      rewrite (store_at _ _ r) by
        (try apply lookup_insert_eq; destruct Hr as [-> _]; lia).
      rewrite insert_insert_eq.
      eexists. split; [done|]. eexists. split; [done|].
      apply lanes_after_write; [lia|lia|done| |done].
      by rewrite Hc.
    + eexists. split; [done|]. exists r. split; [done|].
      apply lanes_after_skip; [lia|done|done].
Qed.


Lemma mask_bit_off (k1 i : Z) :
  0 ≤ i < 32 → Z.land (Z.shiftr k1 i) 1 = 0 → mask_bit k1 i = Some false.
Proof.
  intros Hi Hb. unfold mask_bit. rewrite decide_True by lia. by rewrite Hb.
Qed.

Lemma mask_bit_on (k1 i : Z) :
  0 ≤ i < 32 → Z.land (Z.shiftr k1 i) 1 = 1 → mask_bit k1 i = Some true.
Proof.
  intros Hi Hb. unfold mask_bit. rewrite decide_True by lia. by rewrite Hb.
Qed.

Lemma realv_permute_lanes (VLEN : Z) (res ctrl v3 : nat) (m : mem)
    (r0 c0 t0 : realv) :
  m !! res = Some r0 → m !! ctrl = Some c0 → m !! v3 = Some t0 →
  wf_realv VLEN r0 → wf_realv VLEN c0 → wf_realv VLEN t0 →
  Forall (λ c, 0 ≤ c < VLEN) c0 →
  ∃ r, realv_permute VLEN res ctrl v3 m = Some (<[res := r]> m)
       ∧ wf_realv VLEN r
       ∧ ∀ i, 0 ≤ i < VLEN → rd r i = rd c0 i ≫= rd t0.
Proof.
  unfold wf_realv. intros Hres Hctrl Hv3 Hr0 Hc0 Ht0 Hidx.
  unfold realv_permute. rewrite Hv3. cbn.
  destruct (gather_loop (λ _, Some true) (rd t0) res ctrl 0 VLEN m r0 c0)
    as (r & Hr & Hlen & Hlanes); [done|done|lia|lia| |].
  { intros i Hi. exists true. split; [done|]. intros _.
    destruct (rd_is_Some c0 i) as [c Hc]; [lia|]. rewrite Hc. cbn.
    apply rd_is_Some. rewrite rd_lookup in Hc by lia.
    rewrite Forall_forall in Hidx. apply list_elem_of_lookup_2 in Hc.
    specialize (Hidx c Hc). lia. }
  exists r. split; [exact Hr|]. split; [congruence|].
  intros i Hi. rewrite Hlanes. by rewrite decide_True.
Qed.





(** The two calls by evaluation. *)
Example realv_align_mask_res_is_v2 :
  realv_align 4 1 1 2 3 align_example ≫= (λ m, m !! 1%nat)
  = Some [40; 40; 40; 40]
  ∧ realv_align_mask 4 1 1 2 3 14 align_example ≫= (λ m, m !! 1%nat)
    = Some [50; 50; 50; 50].
Proof. split; reflexivity. Qed.

Lemma land_idx_mask_range (rb : real_bytes) (c : Z) :
  0 ≤ Z.land c (CTRL_IDX_MASK rb) ≤ CTRL_IDX_MASK rb.
Proof.
  destruct rb; cbn [CTRL_IDX_MASK].
  - change 15 with (Z.ones 4). rewrite Z.land_ones by lia.
    pose proof (Z.mod_pos_bound c (2 ^ 4)). change (Z.ones 4) with 15. lia.
  - change 7 with (Z.ones 3). rewrite Z.land_ones by lia.
    pose proof (Z.mod_pos_bound c (2 ^ 3)). change (Z.ones 3) with 7. lia.
Qed.

(** C10 (as the code has it).  Two-source permutation: when the index mask
    stays below the lane count, [CTRL_IDX_MASK < VLEN], the emulated
    [realv_permute2] returns for every content of the control register, and
    lane [i] of the result is lane [ctrl.ci[i] & CTRL_IDX_MASK] of [a] when
    [ctrl.ci[i] & CTRL_SEL_BIT] is zero and of [b] otherwise. *)
Theorem realv_permute2_encoding (VLEN : Z) (rb : real_bytes)
    (res ctrl a b : nat) (m : mem) (r0 c0 ta tb : realv) :
  m !! res = Some r0 → m !! ctrl = Some c0 →
  m !! a = Some ta → m !! b = Some tb →
  wf_realv VLEN r0 → wf_realv VLEN c0 →
  wf_realv VLEN ta → wf_realv VLEN tb →
  CTRL_IDX_MASK rb < VLEN →
  ∃ r, realv_permute2 VLEN rb res ctrl a b m = Some (<[res := r]> m)
       ∧ wf_realv VLEN r
       ∧ ∀ i, 0 ≤ i < VLEN →
           ∃ c x, rd c0 i = Some c ∧ rd r i = Some x ∧
             (Z.land c (CTRL_SEL_BIT rb) = 0 →
              rd ta (Z.land c (CTRL_IDX_MASK rb)) = Some x) ∧
             (Z.land c (CTRL_SEL_BIT rb) ≠ 0 →
              rd tb (Z.land c (CTRL_IDX_MASK rb)) = Some x).
Proof.
  unfold wf_realv. intros Hres Hctrl Ha Hb Hr0 Hc0 Hta Htb Hmask.
  unfold realv_permute2. rewrite Ha, Hb. cbn.
  set (f := λ c : Z,
         if Z.land c (CTRL_SEL_BIT rb) =? 0
         then rd ta (Z.land c (CTRL_IDX_MASK rb))
         else rd tb (Z.land c (CTRL_IDX_MASK rb))).
  assert (∀ c, is_Some (f c)) as Hf.
  { intros c. unfold f. pose proof (land_idx_mask_range rb c).
    destruct (_ =? 0); apply rd_is_Some; lia. }
  destruct (gather_loop (λ _, Some true) f res ctrl 0 VLEN m r0 c0)
    as (r & Hr & Hlen & Hlanes); [done|done|lia|lia| |].
  { intros i Hi. exists true. split; [done|]. intros _.
    destruct (rd_is_Some c0 i) as [c Hc]; [lia|]. rewrite Hc. apply Hf. }
  exists r. split; [exact Hr|]. split; [congruence|].
  intros i Hi. destruct (rd_is_Some c0 i) as [c Hc]; [lia|].
  destruct (Hf c) as [x Hx]. exists c, x. split; [done|].
  specialize (Hlanes i). rewrite decide_True, Hc in Hlanes by done.
  cbn in Hlanes. rewrite Hx in Hlanes. split; [done|].
  unfold f in Hx. split; intros Hsel.
  - by rewrite Hsel in Hx.
  - apply Z.eqb_neq in Hsel. by rewrite Hsel in Hx.
Qed.

Lemma realv_permute2_encoding_witness :
  ∃ r, realv_permute2 16 REAL_BYTES_4 0 0 1 1
         {[ 0%nat := replicate 16 0x1f; 1%nat := replicate 16 float_1 ]}
       = Some (<[0%nat := r]>
                 {[ 0%nat := replicate 16 0x1f;
                    1%nat := replicate 16 float_1 ]})
       ∧ wf_realv 16 r
       ∧ ∀ i, 0 ≤ i < 16 →
           ∃ c x, rd (replicate 16 0x1f) i = Some c ∧ rd r i = Some x ∧
             (Z.land c (CTRL_SEL_BIT REAL_BYTES_4) = 0 →
              rd (replicate 16 float_1)
                 (Z.land c (CTRL_IDX_MASK REAL_BYTES_4)) = Some x) ∧
             (Z.land c (CTRL_SEL_BIT REAL_BYTES_4) ≠ 0 →
              rd (replicate 16 float_1)
                 (Z.land c (CTRL_IDX_MASK REAL_BYTES_4)) = Some x).
Proof.
  apply (realv_permute2_encoding 16 REAL_BYTES_4 0 0 1 1 _
           (replicate 16 0x1f) (replicate 16 0x1f)
           (replicate 16 float_1) (replicate 16 float_1));
    [reflexivity|reflexivity|reflexivity|reflexivity|reflexivity|reflexivity
    |reflexivity|reflexivity|reflexivity].
Defined.

(** C10 (as stated) fails: the emulation is also built for [VLEN = 1], where a
    control lane holding 1 selects lane 1 of a one-lane register, outside
    it. *)
Lemma realv_permute2_out_of_bounds :
  ¬ (∀ (VLEN : Z) (rb : real_bytes) (res ctrl a b : nat) (m : mem)
       (r0 c0 ta tb : realv),
       m !! res = Some r0 → m !! ctrl = Some c0 →
       m !! a = Some ta → m !! b = Some tb →
       wf_realv VLEN r0 → wf_realv VLEN c0 →
       wf_realv VLEN ta → wf_realv VLEN tb →
       is_Some (realv_permute2 VLEN rb res ctrl a b m)).
Proof.
  intros H.
  destruct (H 1 REAL_BYTES_4 0%nat 1%nat 2%nat 3%nat permute2_example
              [0] [1] [7] [9]) as [m' Hm'];
    [reflexivity|reflexivity|reflexivity|reflexivity|reflexivity|reflexivity
    |reflexivity|reflexivity|].
  vm_compute in Hm'. discriminate.
Qed.

(** *** Comparisons of reals *)

Lemma Pos_compare_cont_Eq_antisym (p q : positive) :
  Pos.compare_cont Eq q p = CompOpp (Pos.compare_cont Eq p q).
Proof. by rewrite (Pos.compare_cont_antisym p q Eq). Qed.

Lemma SFcompare_antisym (x y : spec_float) :
  SFcompare y x = CompOpp <$> SFcompare x y.
Proof.
  destruct x as [sx|sx| |sx mx ex], y as [sy|sy| |sy my ey]; cbn;
    try destruct sx; try destruct sy; try reflexivity;
    rewrite (Z.compare_antisym ex ey), (Pos_compare_cont_Eq_antisym mx my);
    destruct (ex ?= ey); cbn; try reflexivity;
    by rewrite ?CompOpp_involutive.
Qed.

Lemma SFltb_asym (x y : spec_float) : SFltb x y = true → SFltb y x = false.
Proof.
  unfold SFltb. rewrite (SFcompare_antisym x y).
  by destruct (SFcompare x y) as [[]|].
Qed.

Lemma SFltb_irrefl (x : spec_float) : SFltb x x = false.
Proof.
  destruct (SFltb x x) eqn:H; [|done]. by rewrite (SFltb_asym x x H) in H.
Qed.

Lemma SFcompare_is_Some (x y : spec_float) :
  x ≠ S754_nan → y ≠ S754_nan → is_Some (SFcompare x y).
Proof. destruct x, y; cbn; intros; by eauto. Qed.

Lemma SFcompare_refl (x : spec_float) :
  x ≠ S754_nan → SFcompare x x = Some Eq.
Proof.
  destruct x as [s|s| |s m e]; cbn; intros; try done;
    destruct s; try done;
    by rewrite Z.compare_refl, Pos.compare_cont_refl.
Qed.

Section Compare.
Variable VLEN : Z.
Variable rb : real_bytes.

Lemma REAL_lt_asym (x y : Z) : REAL_lt rb x y = true → REAL_gt rb x y = false.
Proof. apply SFltb_asym. Qed.

Lemma REAL_gt_asym (x y : Z) : REAL_gt rb x y = true → REAL_lt rb x y = false.
Proof. apply SFltb_asym. Qed.

Lemma REAL_lt_irrefl (x : Z) : REAL_lt rb x x = false.
Proof. apply SFltb_irrefl. Qed.

Lemma REAL_ne_refl (x : Z) :
  REAL_of_bits rb x ≠ S754_nan → REAL_ne rb x x = false.
Proof.
  intros Hx. unfold REAL_ne, SFeqb. by rewrite SFcompare_refl.
Qed.

Lemma REAL_ne_sym (x y : Z) : REAL_ne rb x y = REAL_ne rb y x.
Proof.
  unfold REAL_ne, SFeqb.
  rewrite (SFcompare_antisym (REAL_of_bits rb y) (REAL_of_bits rb x)).
  by destruct (SFcompare _ _) as [[]|].
Qed.

(** Without a NaN on either side, [!=] is [<] or [>]. *)
Lemma REAL_ne_ordered (x y : Z) :
  REAL_of_bits rb x ≠ S754_nan → REAL_of_bits rb y ≠ S754_nan →
  REAL_ne rb x y = REAL_lt rb x y || REAL_gt rb x y.
Proof.
  intros Hx Hy. unfold REAL_ne, REAL_lt, REAL_gt, SFeqb, SFltb.
  rewrite (SFcompare_antisym (REAL_of_bits rb x) (REAL_of_bits rb y)).
  destruct (SFcompare_is_Some _ _ Hx Hy) as [c ->]. by destruct c.
Qed.

Lemma lt_from_is_Some (n : nat) (j : Z) (a b : realv) :
  0 ≤ j → j + Z.of_nat n ≤ Z.of_nat (length a) →
  j + Z.of_nat n ≤ Z.of_nat (length b) →
  is_Some (lt_from rb n j a b).
Proof.
  revert j. induction n as [|n IH]; intros j Hj Ha Hb; [by eexists|].
  cbn [lt_from].
  destruct (rd_is_Some a j) as [x ->]; [lia|].
  destruct (rd_is_Some b j) as [y ->]; [lia|]. cbn.
  destruct (REAL_lt rb x y); [by eexists|].
  destruct (REAL_gt rb x y); [by eexists|].
  apply IH; lia.
Qed.

Lemma gt_from_mirror (n : nat) (j : Z) (a b : realv) :
  gt_from rb n j a b = lt_from rb n j b a.
Proof.
  revert j. induction n as [|n IH]; intros j; [done|]. cbn [gt_from lt_from].
  destruct (rd a j) as [x|], (rd b j) as [y|]; cbn; try done.
  change (REAL_gt rb x y) with (REAL_lt rb y x).
  change (REAL_lt rb x y) with (REAL_gt rb y x).
  by rewrite IH.
Qed.

Lemma lt_from_irrefl (n : nat) (j : Z) (a : realv) :
  0 ≤ j → j + Z.of_nat n ≤ Z.of_nat (length a) →
  lt_from rb n j a a = Some false.
Proof.
  revert j. induction n as [|n IH]; intros j Hj Ha; [done|]. cbn [lt_from].
  destruct (rd_is_Some a j) as [x ->]; [lia|]. cbn.
  change (REAL_gt rb x x) with (REAL_lt rb x x).
  rewrite REAL_lt_irrefl. apply IH; lia.
Qed.

Lemma lt_from_asym (n : nat) (j : Z) (a b : realv) :
  lt_from rb n j a b = Some true → lt_from rb n j b a = Some false.
Proof.
  revert j. induction n as [|n IH]; intros j; [done|]. cbn [lt_from].
  destruct (rd a j) as [x|], (rd b j) as [y|]; cbn; try done.
  change (REAL_gt rb y x) with (REAL_lt rb x y).
  change (REAL_lt rb y x) with (REAL_gt rb x y).
  destruct (REAL_lt rb x y) eqn:Hlt.
  - by rewrite (REAL_lt_asym x y Hlt).
  - destruct (REAL_gt rb x y); [done|]. apply IH.
Qed.

(** The loop of [operator<] answers [true] exactly when it meets a lane that
    is less before any lane that is greater. *)
Lemma lt_from_decided (n : nat) (j : Z) (a b : realv) :
  lt_from rb n j a b = Some true ↔
  decided_at rb (REAL_lt rb) a b j (j + Z.of_nat n)
  ∧ is_Some (lt_from rb n j a b).
Proof.
  revert j. induction n as [|n IH]; intros j.
  - cbn. split; [done|]. intros [(k & x & y & Hk & _) _]. lia.
  - cbn [lt_from].
    destruct (rd a j) as [x|] eqn:Hx; [|split; [done|by intros [_ [? ?]]]].
    destruct (rd b j) as [y|] eqn:Hy; [|split; [done|by intros [_ [? ?]]]].
    cbn. destruct (REAL_lt rb x y) eqn:Hlt.
    + split; [intros _|done]. split; [|by eexists].
      exists j, x, y. split_and!; try done; try lia.
      intros i ? ? Hi. lia.
    + destruct (REAL_gt rb x y) eqn:Hgt.
      * split; [done|]. intros [(k & x' & y' & Hk & Hx' & Hy' & Hrel & Hpass) _].
        destruct (decide (k = j)) as [->|Hne]; [congruence|].
        destruct (Hpass j x y); [lia|done|done|congruence].
      * rewrite IH. split.
        -- intros [(k & x' & y' & Hk & Hx' & Hy' & Hrel & Hpass) Hsome].
           split; [|done]. exists k, x', y'. split_and!; try done; try lia.
           intros i x'' y'' Hi Hx'' Hy''.
           destruct (decide (i = j)) as [->|Hne]; [|apply (Hpass i); [lia|done..]].
           assert (x'' = x) as -> by congruence.
           assert (y'' = y) as -> by congruence. done.
        -- intros [(k & x' & y' & Hk & Hx' & Hy' & Hrel & Hpass) Hsome].
           split; [|done].
           destruct (decide (k = j)) as [->|Hne]; [congruence|].
           exists k, x', y'. split_and!; try done; try lia.
           intros i x'' y'' Hi. apply Hpass. lia.
Qed.

Lemma decided_at_mirror (a b : realv) (lo hi : Z) :
  decided_at rb (REAL_gt rb) a b lo hi ↔ decided_at rb (REAL_lt rb) b a lo hi.
Proof.
  unfold decided_at, passed_over.
  split; intros (k & x & y & Hk & Hx & Hy & Hrel & Hpass);
    exists k, y, x; split_and!; try done; try exact Hrel; try lia;
    intros i x' y' Hi Hx' Hy';
    destruct (Hpass i y' x') as [H1 H2]; [done..|];
    split; [exact H2|exact H1].
Qed.

Lemma eq_from_is_Some (n : nat) (j : Z) (a b : realv) :
  0 ≤ j → j + Z.of_nat n ≤ Z.of_nat (length a) →
  j + Z.of_nat n ≤ Z.of_nat (length b) →
  is_Some (eq_from rb n j a b).
Proof.
  revert j. induction n as [|n IH]; intros j Hj Ha Hb; [by eexists|].
  cbn [eq_from].
  destruct (rd_is_Some a j) as [x ->]; [lia|].
  destruct (rd_is_Some b j) as [y ->]; [lia|]. cbn.
  destruct (REAL_ne rb x y); [by eexists|]. apply IH; lia.
Qed.

(** The loop of [operator==] answers [true] exactly when no lane is [!=]. *)
Lemma eq_from_all (n : nat) (j : Z) (a b : realv) :
  0 ≤ j → j + Z.of_nat n ≤ Z.of_nat (length a) →
  j + Z.of_nat n ≤ Z.of_nat (length b) →
  eq_from rb n j a b = Some true ↔
  ∀ i x y, j ≤ i < j + Z.of_nat n → rd a i = Some x → rd b i = Some y →
           REAL_ne rb x y = false.
Proof.
  revert j. induction n as [|n IH]; intros j Hj Ha Hb.
  - cbn. split; [|done]. intros _ i x y Hi. lia.
  - cbn [eq_from].
    destruct (rd_is_Some a j) as [x Hx]; [lia|].
    destruct (rd_is_Some b j) as [y Hy]; [lia|]. rewrite Hx, Hy. cbn.
    destruct (REAL_ne rb x y) eqn:Hne.
    + split; [done|]. intros Hall.
      rewrite (Hall j x y) in Hne; [done|lia|done|done].
    + rewrite IH by lia. split.
      * intros Hall i x' y' Hi Hx' Hy'.
        destruct (decide (i = j)) as [->|Hij]; [congruence|].
        apply (Hall i); [lia|done|done].
      * intros Hall i x' y' Hi. apply Hall. lia.
Qed.

Lemma no_NaN_rd (a : realv) (i x : Z) :
  no_NaN rb a → rd a i = Some x → REAL_of_bits rb x ≠ S754_nan.
Proof.
  unfold no_NaN. rewrite Forall_forall. intros Ha Hx. apply Ha.
  unfold rd in Hx. case_decide; [|done]. by eapply list_elem_of_lookup_2.
Qed.

End Compare.

(** C4 (as the code has it).  [operator==] returns, and returns [true] exactly
    when every lane of [a] is equal as a real ([==]) to the same lane of [b];
    a register is equal to one with the same bits when none of its lanes is
    a NaN. *)
Theorem realv_eq_lanes (VLEN : Z) (rb : real_bytes) (a b : realv) :
  wf_realv VLEN a → wf_realv VLEN b →
  is_Some (realv_eq VLEN rb a b)
  ∧ (realv_eq VLEN rb a b = Some true ↔ lanes_equal rb a b)
  ∧ (a = b → no_NaN rb a → realv_eq VLEN rb a b = Some true).
Proof.
  unfold wf_realv, realv_eq. intros Ha Hb.
  assert (realv_eq VLEN rb a b = Some true ↔ lanes_equal rb a b) as Hiff.
  { unfold realv_eq. rewrite eq_from_all by lia. unfold lanes_equal. split.
    - intros Hall i x y Hx Hy. apply (Hall i); [|done|done].
      destruct (decide (0 ≤ i)); [|by rewrite rd_neg in Hx by lia].
      destruct (decide (i < VLEN)); [lia|].
      by rewrite rd_beyond in Hx by lia.
    - intros Hall i x y _. apply Hall. }
  split; [apply eq_from_is_Some; lia|]. split; [exact Hiff|].
  intros -> Hnan. apply Hiff. intros i x y Hx Hy.
  assert (y = x) as -> by congruence.
  apply REAL_ne_refl. by eapply no_NaN_rd.
Qed.

Lemma realv_eq_lanes_witness :
  is_Some (realv_eq 2 REAL_BYTES_4 [float_1; float_2] [float_1; float_2])
  ∧ (realv_eq 2 REAL_BYTES_4 [float_1; float_2] [float_1; float_2] = Some true
     ↔ lanes_equal REAL_BYTES_4 [float_1; float_2] [float_1; float_2])
  ∧ ([float_1; float_2] = [float_1; float_2] →
     no_NaN REAL_BYTES_4 [float_1; float_2] →
     realv_eq 2 REAL_BYTES_4 [float_1; float_2] [float_1; float_2]
     = Some true).
Proof.
  apply (realv_eq_lanes 2 REAL_BYTES_4 [float_1; float_2] [float_1; float_2]);
    reflexivity.
Defined.

(** C4 (as stated) fails: [+0.0] and [-0.0] differ in their sign bit and yet
    compare equal, and a register holding a NaN is not equal to itself. *)
Lemma realv_eq_not_bit_identity :
  realv_eq 1 REAL_BYTES_4 [float_pos_zero] [float_neg_zero] = Some true
  ∧ [float_pos_zero] ≠ [float_neg_zero]
  ∧ realv_eq 1 REAL_BYTES_4 [float_NaN] [float_NaN] = Some false.
Proof. split_and!; [by vm_compute|done|by vm_compute]. Qed.

Lemma first_differing_decides (VLEN : Z) (rb : real_bytes) (a b : realv)
    (k x y : Z) :
  wf_realv VLEN a → wf_realv VLEN b →
  no_NaN rb a → no_NaN rb b →
  first_differing rb a b k x y →
  realv_lt VLEN rb a b = Some (REAL_lt rb x y).
Proof.
  unfold wf_realv, realv_lt.
  intros Ha Hb Hna Hnb (Hk & Hx & Hy & Hne & Hbefore).
  assert (k < VLEN) as HkV.
  { destruct (decide (k < VLEN)); [done|]. by rewrite rd_beyond in Hx by lia. }
  assert (passed_over rb a b 0 k) as Hpass.
  { intros i x' y' Hi Hx' Hy'. specialize (Hbefore i x' y' Hi Hx' Hy').
    rewrite (REAL_ne_ordered rb x' y') in Hbefore
      by (first [by eapply (no_NaN_rd rb a)|by eapply (no_NaN_rd rb b)]).
    by apply orb_false_elim in Hbefore. }
  rewrite (REAL_ne_ordered rb x y) in Hne by (first [by eapply (no_NaN_rd rb a)|by eapply (no_NaN_rd rb b)]).
  destruct (lt_from_is_Some rb (Z.to_nat VLEN) 0 a b) as [res Hres];
    [lia..|].
  pose proof (lt_from_decided rb (Z.to_nat VLEN) 0 a b) as Hdec.
  rewrite Hres in Hdec |- *. f_equal.
  destruct (REAL_lt rb x y) eqn:Hlt.
  - assert (Some res = Some true) as [= ->]; [|done]. apply Hdec.
    split; [|by eexists]. exists k, x, y. split_and!; try done; lia.
  - destruct res; [|done]. cbn in Hne.
    destruct Hdec as [Hdec _].
    destruct (Hdec eq_refl) as [(k' & x' & y' & Hk' & Hx' & Hy' & Hrel & Hp) _].
    destruct (Z.lt_trichotomy k' k) as [Hlt'|[->|Hgt']].
    + specialize (Hbefore k' x' y'). 
      rewrite (REAL_ne_ordered rb x' y'), Hrel in Hbefore
        by (first [by eapply (no_NaN_rd rb a)|by eapply (no_NaN_rd rb b)]).
      discriminate Hbefore; [lia|done|done].
    + congruence.
    + destruct (Hp k x y); [lia|done|done|congruence].
Qed.

(** C8 (as the code has it).  [operator<] returns; it is irreflexive and
    asymmetric; it answers [true] exactly when, going up from lane 0, a lane
    of [a] that is less than the lane of [b] comes before any lane that is
    greater, lanes that are equal or unordered (a NaN on either side) being
    passed over; [operator>] is the same with less and greater exchanged,
    that is [operator<] with the operands exchanged; and between registers
    without NaN lanes the first lane that differs decides both. *)
Theorem realv_lt_lexicographic (VLEN : Z) (rb : real_bytes) (a b : realv) :
  wf_realv VLEN a → wf_realv VLEN b →
  realv_lt VLEN rb a a = Some false
  ∧ is_Some (realv_lt VLEN rb a b)
  ∧ ¬ (realv_lt VLEN rb a b = Some true ∧ realv_lt VLEN rb b a = Some true)
  ∧ (realv_lt VLEN rb a b = Some true ↔
     decided_at rb (REAL_lt rb) a b 0 VLEN)
  ∧ (realv_gt VLEN rb a b = Some true ↔
     decided_at rb (REAL_gt rb) a b 0 VLEN)
  ∧ realv_gt VLEN rb a b = realv_lt VLEN rb b a
  ∧ (no_NaN rb a → no_NaN rb b →
     ∀ k x y, first_differing rb a b k x y →
              realv_lt VLEN rb a b = Some (REAL_lt rb x y) ∧
              realv_gt VLEN rb a b = Some (REAL_gt rb x y)).
Proof.
  intros Ha Hb.
  assert (∀ a b, wf_realv VLEN a → wf_realv VLEN b →
                 (realv_lt VLEN rb a b = Some true ↔
                  decided_at rb (REAL_lt rb) a b 0 VLEN)) as Hdec.
  { clear. unfold wf_realv, realv_lt. intros a b Ha Hb.
    rewrite lt_from_decided.
    replace (0 + Z.of_nat (Z.to_nat VLEN)) with VLEN by lia.
    split; [by intros [? _]|]. intros Hd. split; [done|].
    apply lt_from_is_Some; lia. }
  assert (realv_gt VLEN rb a b = realv_lt VLEN rb b a) as Hmirror
    by apply gt_from_mirror.
  split_and!.
  - unfold wf_realv, realv_lt in *. apply lt_from_irrefl; lia.
  - unfold wf_realv, realv_lt in *. apply lt_from_is_Some; lia.
  - intros [Hab Hba]. unfold realv_lt in *.
    apply lt_from_asym in Hab. congruence.
  - by apply Hdec.
  - rewrite Hmirror, decided_at_mirror. by apply Hdec.
  - exact Hmirror.
  - intros Hna Hnb k x y Hfirst. split.
    + by apply (first_differing_decides VLEN rb a b k x y).
    + rewrite Hmirror. change (REAL_gt rb x y) with (REAL_lt rb y x).
      apply (first_differing_decides VLEN rb b a k y x); [done..|].
      destruct Hfirst as (Hk & Hx & Hy & Hne & Hbefore).
      unfold first_differing. rewrite (REAL_ne_sym rb y x).
      split_and!; try done.
      intros i x' y' Hi Hx' Hy'. rewrite (REAL_ne_sym rb x' y').
      by apply (Hbefore i).
Qed.

Lemma realv_lt_lexicographic_witness :
  realv_lt 2 REAL_BYTES_4 [float_1; float_2] [float_1; float_2] = Some false
  ∧ is_Some (realv_lt 2 REAL_BYTES_4 [float_1; float_2] [float_1; float_5])
  ∧ ¬ (realv_lt 2 REAL_BYTES_4 [float_1; float_2] [float_1; float_5]
       = Some true
       ∧ realv_lt 2 REAL_BYTES_4 [float_1; float_5] [float_1; float_2]
         = Some true)
  ∧ (realv_lt 2 REAL_BYTES_4 [float_1; float_2] [float_1; float_5] = Some true
     ↔ decided_at REAL_BYTES_4 (REAL_lt REAL_BYTES_4)
         [float_1; float_2] [float_1; float_5] 0 2)
  ∧ (realv_gt 2 REAL_BYTES_4 [float_1; float_2] [float_1; float_5] = Some true
     ↔ decided_at REAL_BYTES_4 (REAL_gt REAL_BYTES_4)
         [float_1; float_2] [float_1; float_5] 0 2)
  ∧ realv_gt 2 REAL_BYTES_4 [float_1; float_2] [float_1; float_5]
    = realv_lt 2 REAL_BYTES_4 [float_1; float_5] [float_1; float_2]
  ∧ (no_NaN REAL_BYTES_4 [float_1; float_2] →
     no_NaN REAL_BYTES_4 [float_1; float_5] →
     ∀ k x y,
       first_differing REAL_BYTES_4 [float_1; float_2] [float_1; float_5]
         k x y →
       realv_lt 2 REAL_BYTES_4 [float_1; float_2] [float_1; float_5]
       = Some (REAL_lt REAL_BYTES_4 x y) ∧
       realv_gt 2 REAL_BYTES_4 [float_1; float_2] [float_1; float_5]
       = Some (REAL_gt REAL_BYTES_4 x y)).
Proof.
  apply (realv_lt_lexicographic 2 REAL_BYTES_4 [float_1; float_2] [float_1; float_5]);
    reflexivity.
Defined.

(** C8 (as stated) fails: in [(NaN, 1.0) < (5.0, 2.0)] the first differing
    lane is lane 0, where [NaN < 5.0] is false, and the answer is [true],
    taken from lane 1; and with such lanes the relation is not an ordering:
    [(1.0, 0.0) < (NaN, 1.0)] and [(NaN, 1.0) < (0.0, 2.0)] but not
    [(1.0, 0.0) < (0.0, 2.0)]. *)
Lemma realv_lt_NaN_lane_passed_over :
  ¬ (∀ (VLEN : Z) (rb : real_bytes) (a b : realv) (k x y : Z),
       wf_realv VLEN a → wf_realv VLEN b →
       first_differing rb a b k x y →
       realv_lt VLEN rb a b = Some (REAL_lt rb x y))
  ∧ realv_lt 2 REAL_BYTES_4 [float_1; float_pos_zero] [float_NaN; float_1]
    = Some true
  ∧ realv_lt 2 REAL_BYTES_4 [float_NaN; float_1] [float_pos_zero; float_2]
    = Some true
  ∧ realv_lt 2 REAL_BYTES_4 [float_1; float_pos_zero] [float_pos_zero; float_2]
    = Some false.
Proof.
  split_and!; [|by vm_compute..].
  intros H.
  assert (realv_lt 2 REAL_BYTES_4 [float_NaN; float_1] [float_5; float_2]
          = Some (REAL_lt REAL_BYTES_4 float_NaN float_5)) as Hbad.
  { apply (H 2 REAL_BYTES_4 [float_NaN; float_1] [float_5; float_2] 0);
      [reflexivity|reflexivity|].
    unfold first_differing.
    split_and!; [lia|reflexivity|reflexivity|by vm_compute|].
    intros i x' y' Hi. lia. }
  vm_compute in Hbad. discriminate Hbad.
Qed.

End RealvProofs.


(** ** Visitors *)

Module VisitorProofs.
Import Grid Visitor VisitorSpec.

(** Induction on expressions, through the operand lists. *)
Lemma Expr_ind (P : Expr → Prop) :
  (∀ val, P (ConstExpr val)) →
  (∀ code, P (CodeExpr code)) →
  (∀ gp, P (GridPointExpr gp)) →
  (∀ op rhs, P rhs → P (UnaryExpr op rhs)) →
  (∀ op lhs rhs, P lhs → P rhs → P (BinaryExpr op lhs rhs)) →
  (∀ lhs rhs, P rhs → P (EqualsExpr lhs rhs)) →
  (∀ op ops, Forall P ops → P (CommutativeExpr op ops)) →
  ∀ e, P e.
Proof.
  intros HConst HCode HGp HUn HBin HEq HComm.
  fix IH 1. intros [val|code|gp|op rhs|op lhs rhs|lhs rhs|op ops].
  - apply HConst.
  - apply HCode.
  - apply HGp.
  - apply HUn, IH.
  - apply HBin; apply IH.
  - apply HEq, IH.
  - apply HComm. induction ops as [|x ops IHops]; constructor.
    + apply IH.
    + apply IHops.
Qed.

Lemma to_int_idemp_add (a b : Z) : to_int (to_int a + b) = to_int (a + b).
Proof.
  unfold to_int.
  replace ((a + 2 ^ 31) mod 2 ^ 32 - 2 ^ 31 + b + 2 ^ 31)
    with ((a + 2 ^ 31) mod 2 ^ 32 + b) by lia.
  rewrite Zplus_mod_idemp_l. f_equal. f_equal. lia.
Qed.

Lemma to_int_to_size_t (x : Z) : to_int (to_size_t x) = to_int x.
Proof.
  unfold to_int, to_size_t.
  assert (x mod 2 ^ 64 = x + (- (x / 2 ^ 64) * 2 ^ 32) * 2 ^ 32) as ->.
  { pose proof (Z.div_mod x (2 ^ 64)). lia. }
  replace (x + - (x / 2 ^ 64) * 2 ^ 32 * 2 ^ 32 + 2 ^ 31)
    with (x + 2 ^ 31 + (- (x / 2 ^ 64) * 2 ^ 32) * 2 ^ 32) by lia.
  by rewrite Z_mod_plus_full.
Qed.

Lemma to_int_id (x : Z) : is_int x → to_int x = x.
Proof.
  unfold is_int, to_int. intros Hx. rewrite Z.mod_small; lia.
Qed.

Lemma to_int_is_int (x : Z) : is_int (to_int x).
Proof.
  unfold is_int, to_int. pose proof (Z.mod_pos_bound (x + 2 ^ 31) (2 ^ 32)).
  lia.
Qed.

Lemma numOps_incr_add (n : Z) : numOps_incr n = to_int (n + 1).
Proof. done. Qed.

(** The [size_t] detour of [_numOps += ops.size() - 1] adds [size - 1] to the
    [int], also for an empty operand list. *)
Lemma numOps_add_size_minus_1_add (size : nat) (n : Z) :
  numOps_add_size_minus_1 size n = to_int (n + (Z.of_nat size - 1)).
Proof.
  unfold numOps_add_size_minus_1. rewrite to_int_to_size_t.
  rewrite <- (to_int_to_size_t (to_size_t n + _)).
  rewrite <- (to_int_to_size_t (n + _)).
  unfold to_size_t. by rewrite <- Zplus_mod.
Qed.

Lemma sum_Z_app (l k : list Z) : sum_Z (l ++ k) = sum_Z l + sum_Z k.
Proof. unfold sum_Z. induction l as [|x l IH]; cbn; lia. Qed.

Lemma total_ops_Unary op r : total_ops (UnaryExpr op r) = 1 + total_ops r.
Proof. done. Qed.

Lemma total_ops_Binary op l r :
  total_ops (BinaryExpr op l r) = 1 + (total_ops l + total_ops r).
Proof.
  unfold total_ops. cbn [occurrences map sum_Z foldr node_ops].
  fold (sum_Z (map node_ops (occurrences l ++ occurrences r))).
  by rewrite map_app, sum_Z_app.
Qed.

Lemma total_ops_Equals l r : total_ops (EqualsExpr l r) = total_ops r.
Proof. done. Qed.

Lemma total_ops_Commutative op ops :
  total_ops (CommutativeExpr op ops)
  = Z.of_nat (length ops) - 1 + sum_Z (map total_ops ops).
Proof.
  unfold total_ops. cbn [occurrences map sum_Z foldr node_ops].
  fold (sum_Z (map node_ops (concat (map occurrences ops)))).
  f_equal. induction ops as [|x ops IH]; [done|].
  cbn [map concat]. rewrite map_app, sum_Z_app, IH. done.
Qed.

(** The counter after a visit is the counter before plus the operations of
    all node occurrences, as an [int]. *)
Lemma accept_FpOpCounter (e : Expr) :
  ∀ s, to_int (accept FpOpCounterVisitor e s) = to_int (s + total_ops e).
Proof.
  induction e as [val|code|gp|op rhs IHr|op lhs rhs IHl IHr|lhs rhs IHr
                 |op ops IHops] using Expr_ind; intros s.
  - change (total_ops (ConstExpr val)) with 0. by rewrite Z.add_0_r.
  - change (total_ops (CodeExpr code)) with 0. by rewrite Z.add_0_r.
  - change (total_ops (GridPointExpr gp)) with 0. by rewrite Z.add_0_r.
  - cbn [accept FpOpCounterVisitor visit_UnaryExpr].
    rewrite IHr, numOps_incr_add, to_int_idemp_add, total_ops_Unary.
    f_equal. lia.
  - cbn [accept FpOpCounterVisitor visit_BinaryExpr].
    rewrite IHr, <- to_int_idemp_add, IHl, to_int_idemp_add.
    rewrite numOps_incr_add, <- Z.add_assoc, to_int_idemp_add.
    rewrite total_ops_Binary. f_equal. lia.
  - cbn [accept FpOpCounterVisitor visit_EqualsExpr visit_GridPoint].
    unfold ExprVisitor_visit_EqualsExpr, ExprVisitor_visit_leaf.
    by rewrite IHr, total_ops_Equals.
  - cbn [accept FpOpCounterVisitor visit_CommutativeExpr].
    rewrite numOps_add_size_minus_1_add, total_ops_Commutative.
    rewrite Z.add_assoc.
    rewrite <- (to_int_idemp_add (s + (Z.of_nat (length ops) - 1))).
    generalize (to_int (s + (Z.of_nat (length ops) - 1))). clear s.
    induction IHops as [|x ops Hx _ IH]; intros s.
    + cbn. f_equal. lia.
    + cbn [map accept_each foldl sum_Z foldr].
      fold (accept_each (map (accept FpOpCounterVisitor) ops)
              (accept FpOpCounterVisitor x s)).
      fold (sum_Z (map total_ops ops)).
      rewrite IH, <- to_int_idemp_add, Hx, to_int_idemp_add.
      f_equal. lia.
Qed.

Lemma accept_FpOpCounter_is_int (e : Expr) :
  ∀ s, is_int s → is_int (accept FpOpCounterVisitor e s).
Proof.
  induction e as [val|code|gp|op rhs IHr|op lhs rhs IHl IHr|lhs rhs IHr
                 |op ops IHops] using Expr_ind; intros s Hs; try done.
  - apply IHr, to_int_is_int.
  - apply IHr, IHl, to_int_is_int.
  - by apply IHr.
  - cbn [accept FpOpCounterVisitor visit_CommutativeExpr].
    unfold numOps_add_size_minus_1.
    generalize (to_size_t (to_size_t s + to_size_t (Z.of_nat (length ops) - 1))).
    intros t. pose proof (to_int_is_int t) as Ht. revert Ht.
    generalize (to_int t). clear s Hs t.
    induction IHops as [|x ops Hx _ IH]; intros s Hs; [done|].
    cbn [map accept_each foldl].
    apply IH, Hx, Hs.
Qed.

Lemma getNumOps_total (e : Expr) :
  getNumOps (accept FpOpCounterVisitor e FpOpCounter_init)
  = to_int (total_ops e).
Proof.
  unfold getNumOps, FpOpCounter_init.
  rewrite <- (to_int_id (accept FpOpCounterVisitor e 0)).
  - by rewrite accept_FpOpCounter.
  - apply accept_FpOpCounter_is_int. unfold is_int. lia.
Qed.

Lemma count_unary_binary_Unary op r :
  count_unary_binary (UnaryExpr op r) = S (count_unary_binary r).
Proof. done. Qed.

Lemma count_unary_binary_Binary op l r :
  count_unary_binary (BinaryExpr op l r)
  = S (count_unary_binary l + count_unary_binary r).
Proof.
  unfold count_unary_binary. cbn [occurrences].
  rewrite filter_cons_True by done. cbn [length].
  by rewrite filter_app, length_app.
Qed.

(** In an expression of unary and binary nodes over leaves, the operations
    are the unary and binary nodes. *)
Lemma total_ops_unary_binary (e : Expr) :
  unary_binary_only e = true →
  total_ops e = Z.of_nat (count_unary_binary e).
Proof.
  induction e as [val|code|gp|op rhs IHr|op lhs rhs IHl IHr|lhs rhs IHr
                 |op ops IHops] using Expr_ind; cbn [unary_binary_only];
    intros Hub; try done.
  - rewrite total_ops_Unary, count_unary_binary_Unary, IHr by done. lia.
  - apply andb_prop in Hub as [Hl Hr].
    rewrite total_ops_Binary, count_unary_binary_Binary, IHl, IHr by done.
    lia.
Qed.

Lemma visit_each_operands (fuel : nat) (hp : heap) (ops : list nat) :
  Forall (λ c, ∃ e, expr_at fuel hp c = Some e ∧
               ∀ n, FpOpCounter_visit_at fuel hp c n
                    = Some (accept FpOpCounterVisitor e n)) ops →
  ∃ es, mapM (expr_at fuel hp) ops = Some es ∧
        ∀ n, visit_each (FpOpCounter_visit_at fuel hp) ops n
             = Some (accept_each (map (accept FpOpCounterVisitor) es) n).
Proof.
  induction 1 as [|c ops (e & He & Hc) _ (es & Hes & Hops)].
  - by exists [].
  - exists (e :: es). split.
    + cbn. by rewrite He, Hes.
    + intros n. unfold visit_each in *. cbn [foldl mbind option_bind].
      rewrite Hc. apply Hops.
Qed.

(** Following the pointers of a well-formed heap, the counter does what it
    does on the expression below the handle. *)
Lemma FpOpCounter_visit_at_expr (hp : heap) :
  wf_heap hp →
  ∀ fuel h, (h < fuel)%nat → (h < length hp)%nat →
    ∃ e, expr_at fuel hp h = Some e ∧
         ∀ n, FpOpCounter_visit_at fuel hp h n
              = Some (accept FpOpCounterVisitor e n).
Proof.
  intros Hwf. induction fuel as [|fuel IH]; intros h Hfuel Hh; [lia|].
  destruct (lookup_lt_is_Some_2 hp h Hh) as [nd Hnd].
  pose proof (Hwf h nd Hnd) as Hops.
  assert (Forall (λ c, ∃ e, expr_at fuel hp c = Some e ∧
                       ∀ n, FpOpCounter_visit_at fuel hp c n
                            = Some (accept FpOpCounterVisitor e n))
            (operands nd)) as Hsub.
  { eapply Forall_impl; [exact Hops|]. intros c Hc. cbn beta in Hc. apply IH; lia. }
  cbn [expr_at FpOpCounter_visit_at]. rewrite Hnd. cbn [mbind option_bind].
  destruct nd as [val|code|gp|op rhs|op lhs rhs|lhs rhs|op ops];
    cbn [operands] in Hsub.
  - by eexists.
  - by eexists.
  - by eexists.
  - apply Forall_cons_1 in Hsub as [(r & -> & Hr) _].
    eexists. split; [done|]. intros n. by rewrite Hr.
  - apply Forall_cons_1 in Hsub as [(l & -> & Hl) Hsub].
    apply Forall_cons_1 in Hsub as [(r & -> & Hr) _].
    eexists. split; [done|]. intros n. rewrite Hl. cbn. by rewrite Hr.
  - apply Forall_cons_1 in Hsub as [(r & -> & Hr) _].
    eexists. split; [done|]. intros n. by rewrite Hr.
  - destruct (visit_each_operands fuel hp ops Hsub) as (es & Hes & Hvisit).
    rewrite Hes. eexists. split; [done|]. intros n. rewrite Hvisit.
    cbn [accept FpOpCounterVisitor visit_CommutativeExpr].
    by rewrite length_map || rewrite (length_mapM _ _ _ Hes).
Qed.

(** C2.  The op counter: a leaf adds nothing, a unary and a binary node add 1
    and a commutative node of [k] operands adds [k - 1] before the operands
    are visited in order; so the count of a visit started at 0 is the sum of
    these over all node occurrences, as an [int], and the sum itself when it
    is in the range of [int]: [n] for an expression of [n] unary and binary
    nodes over leaves, and twice the operations of a subexpression that two
    operands of a binary node share.  On a well-formed heap of linked nodes
    the visit of a handle returns, and counts the occurrences of the
    expression below it, a shared node once for every use. *)
Theorem FpOpCounter_op_count :
  (∀ val s, accept FpOpCounterVisitor (ConstExpr val) s = s)
  ∧ (∀ code s, accept FpOpCounterVisitor (CodeExpr code) s = s)
  ∧ (∀ gp s, accept FpOpCounterVisitor (GridPointExpr gp) s = s)
  ∧ (∀ op rhs s,
       accept FpOpCounterVisitor (UnaryExpr op rhs) s
       = accept FpOpCounterVisitor rhs (to_int (s + 1)))
  ∧ (∀ op lhs rhs s,
       accept FpOpCounterVisitor (BinaryExpr op lhs rhs) s
       = accept FpOpCounterVisitor rhs
           (accept FpOpCounterVisitor lhs (to_int (s + 1))))
  ∧ (∀ op ops s,
       accept FpOpCounterVisitor (CommutativeExpr op ops) s
       = accept_each (map (accept FpOpCounterVisitor) ops)
           (to_int (s + (Z.of_nat (length ops) - 1))))
  ∧ (∀ e, getNumOps (accept FpOpCounterVisitor e FpOpCounter_init)
          = to_int (total_ops e))
  ∧ (∀ e, is_int (total_ops e) →
          getNumOps (accept FpOpCounterVisitor e FpOpCounter_init)
          = total_ops e)
  ∧ (∀ e n, unary_binary_only e = true → count_unary_binary e = n →
            is_int (Z.of_nat n) →
            getNumOps (accept FpOpCounterVisitor e FpOpCounter_init)
            = Z.of_nat n)
  ∧ (∀ op e, is_int (1 + 2 * total_ops e) →
             getNumOps (accept FpOpCounterVisitor (BinaryExpr op e e)
                          FpOpCounter_init)
             = 1 + 2 * total_ops e)
  ∧ (∀ hp h, wf_heap hp → (h < length hp)%nat →
             ∃ e, expr_at (S h) hp h = Some e ∧
                  getNumOps <$> FpOpCounter_visit_at (S h) hp h
                                  FpOpCounter_init
                  = Some (to_int (total_ops e))).
Proof.
  split_and!; try done.
  - intros op ops s.
    cbn [accept FpOpCounterVisitor visit_CommutativeExpr].
    by rewrite numOps_add_size_minus_1_add.
  - apply getNumOps_total.
  - intros e He. by rewrite getNumOps_total, to_int_id.
  - intros e n Hub <- Hn.
    rewrite getNumOps_total, total_ops_unary_binary by done.
    by rewrite to_int_id.
  - intros op e He. rewrite getNumOps_total, total_ops_Binary.
    replace (1 + (total_ops e + total_ops e)) with (1 + 2 * total_ops e)
      by lia.
    by rewrite to_int_id.
  - intros hp h Hwf Hh.
    destruct (FpOpCounter_visit_at_expr hp Hwf (S h) h) as (e & He & Hvisit);
      [lia|done|].
    exists e. split; [done|]. rewrite Hvisit. cbn [fmap option_fmap option_map].
    f_equal. apply getNumOps_total.
Qed.

Example shared_heap_count :
  FpOpCounter_visit_at 5 shared_heap 4 FpOpCounter_init = Some 5.
Proof. reflexivity. Qed.

Lemma FpOpCounter_op_count_witness :
  getNumOps (accept FpOpCounterVisitor equation_example FpOpCounter_init) = 2
  ∧ getNumOps (accept FpOpCounterVisitor sum_example FpOpCounter_init) = 2
  ∧ getNumOps (accept FpOpCounterVisitor nested_example FpOpCounter_init)
    = Z.of_nat 2
  ∧ getNumOps (accept FpOpCounterVisitor
                 (BinaryExpr "/" sum_example sum_example) FpOpCounter_init)
    = 5
  ∧ (∃ e, expr_at 5 shared_heap 4 = Some e ∧
          getNumOps <$> FpOpCounter_visit_at 5 shared_heap 4 FpOpCounter_init
          = Some (to_int (total_ops e))).
Proof.
  destruct FpOpCounter_op_count
    as (_ & _ & _ & _ & _ & _ & _ & Htotal & Hnested & Hshared & Hheap).
  split_and!; [| | | |apply (Hheap shared_heap 4%nat); [|cbn; lia];
                     intros [|[|[|[|[|h]]]]] nd [= <-]; cbn;
                     repeat constructor; lia].
  - apply (Htotal equation_example). unfold is_int. by vm_compute.
  - apply (Htotal sum_example). unfold is_int. by vm_compute.
  - apply (Hnested nested_example 2%nat); [reflexivity|reflexivity|].
    unfold is_int. by vm_compute.
  - apply (Hshared "/" sum_example). unfold is_int. by vm_compute.
Defined.

(** C3 (as the code has it).  A visitor that keeps the base class's
    [visit] for [EqualsExpr] visits the left-hand grid point first, through
    its [visit] for [GridPoint], and then the right-hand side. *)
Theorem default_visit_EqualsExpr (St : Type) (ev : ExprVisitor St)
    (lhs : GridPoint) (rhs : Expr) (s : St) :
  visit_EqualsExpr ev = ExprVisitor_visit_EqualsExpr →
  accept ev (EqualsExpr lhs rhs) s
  = accept ev rhs (accept ev (GridPointExpr lhs) s)
  ∧ accept ev (GridPointExpr lhs) s = visit_GridPoint ev lhs s.
Proof. intros Hdefault. cbn [accept]. by rewrite Hdefault. Qed.

Lemma default_visit_EqualsExpr_witness :
  accept PointLogVisitor (EqualsExpr data_t1_x nested_example) []
  = accept PointLogVisitor nested_example
      (accept PointLogVisitor (GridPointExpr data_t1_x) [])
  ∧ accept PointLogVisitor (GridPointExpr data_t1_x) []
    = visit_GridPoint PointLogVisitor data_t1_x [].
Proof.
  apply (default_visit_EqualsExpr _ PointLogVisitor data_t1_x nested_example
           []).
  reflexivity.
Defined.

(** C3 (as stated) fails: a visitor that overrides nothing but the [visit]
    for [GridPoint] is handed the left-hand point of an equation. *)
Lemma default_visit_EqualsExpr_descends_lhs :
  ¬ (∀ (St : Type) (ev : ExprVisitor St) (lhs : GridPoint) (rhs : Expr)
       (s : St),
       visit_EqualsExpr ev = ExprVisitor_visit_EqualsExpr →
       accept ev (EqualsExpr lhs rhs) s = accept ev rhs s).
Proof.
  intros H.
  specialize (H _ PointLogVisitor data_t1_x (ConstExpr 2) [] eq_refl).
  discriminate H.
Qed.

End VisitorProofs.

(** ** Pointer cache *)

Module CppProofs.
Import Grid Cpp CppSpec.

Lemma arg_in_setArgConst_ne (dims : list string) (args : list IndexExpr)
    (val : IntScalar) (d : string) :
  d ≠ is_name val →
  arg_in dims (setArgConst_in dims args val) d = arg_in dims args d.
Proof.
  intros Hne. revert args. induction dims as [|dn dims IH]; intros [|a args];
    cbn [setArgConst_in arg_in]; try done.
  case_decide; cbn [arg_in]; repeat case_decide; subst; try done; try apply IH.
Qed.

Lemma arg_in_setArgConst_eq (dims : list string) (args : list IndexExpr)
    (val : IntScalar) :
  is_Some (arg_in dims args (is_name val)) →
  arg_in dims (setArgConst_in dims args val) (is_name val)
  = Some (IdxConst (is_val val)).
Proof.
  revert args. induction dims as [|dn dims IH]; intros [|a args];
    cbn [setArgConst_in arg_in]; try by intros [? ?].
  case_decide; cbn [arg_in]; repeat case_decide; subst; try done; try apply IH.
Qed.

Lemma setArgConst_in_idemp (dims : list string) (args : list IndexExpr)
    (val : IntScalar) :
  setArgConst_in dims (setArgConst_in dims args val) val
  = setArgConst_in dims args val.
Proof.
  revert args. induction dims as [|dn dims IH]; intros [|a args];
    cbn [setArgConst_in]; try done.
  case_decide; cbn [setArgConst_in]; repeat case_decide; subst; try done; try by rewrite IH.
Qed.

Lemma setArgConst_in_length (dims : list string) (args : list IndexExpr)
    (val : IntScalar) :
  length (setArgConst_in dims args val) = length args.
Proof.
  revert args. induction dims as [|dn dims IH]; intros [|a args];
    cbn [setArgConst_in]; try done.
  case_decide; cbn [length]; [done|]. by rewrite IH.
Qed.

(** The fold planner's base point, dimension by dimension: an offset in a
    fold dimension becomes its aligned value, any other index expression
    stays. *)
Lemma arg_in_foldBase_in (fold : FoldShape) (dims : list string)
    (args : list IndexExpr) (d : string) :
  arg_in dims (foldBase_in fold dims args) d
  = match arg_in dims args d, fold_mult fold d with
    | Some (IdxOffset o), Some k => Some (IdxOffset (alignedOffset k o))
    | e, _ => e
    end.
Proof.
  revert args. induction dims as [|dn dims IH]; intros [|a args];
    cbn [foldBase_in arg_in]; try done.
  case_decide as Hd; [|apply IH]. subst dn.
  by destruct a, (fold_mult fold d).
Qed.

Lemma getArg_makeBasePoint_ne (h : CppVecPrintHelper) (gp : GridPoint)
    (d : string) :
  d ≠ _innerDim (getDims h) → getArg (makeBasePoint h gp) d = getArg gp d.
Proof.
  intros Hd. unfold makeBasePoint, cloneGridPoint, setArgConst, getArg.
  cbn [gp_grid gp_args]. by rewrite arg_in_setArgConst_ne.
Qed.

Lemma getArg_makeBasePoint_inner (h : CppVecPrintHelper) (gp : GridPoint) :
  is_Some (getArg gp (_innerDim (getDims h))) →
  getArg (makeBasePoint h gp) (_innerDim (getDims h)) = Some (IdxConst 0).
Proof.
  intros Hin. unfold makeBasePoint, cloneGridPoint, setArgConst, getArg.
  cbn [gp_grid gp_args].
  by rewrite (arg_in_setArgConst_eq _ _
                {| is_name := _innerDim (getDims h); is_val := 0 |}).
Qed.

Lemma getArg_foldBasePoint (fold : FoldShape) (gp : GridPoint) (d : string) :
  getArg (foldBasePoint fold gp) d
  = match getArg gp d, fold_mult fold d with
    | Some (IdxOffset o), Some k => Some (IdxOffset (alignedOffset k o))
    | e, _ => e
    end.
Proof.
  unfold foldBasePoint, getArg. cbn [gp_grid gp_args].
  apply arg_in_foldBase_in.
Qed.

(** C7 (as the code has it).  [makeBasePoint] keeps the grid and the number
    of index expressions, puts the constant 0 in the inner dimension when the
    grid has it, leaves the index expression of every other dimension as it
    is, and is idempotent.  It is not the fold planner's base-point mapping,
    which turns the offset of every fold dimension into its aligned value:
    the two points differ whenever a fold dimension other than the inner one
    has an offset that is not aligned (there [makeBasePoint] keeps the
    offset), and whenever the inner index is an offset from the loop variable
    (there the planner leaves an offset from the loop variable and
    [makeBasePoint] the constant 0). *)
Theorem makeBasePoint_inner_only (h : CppVecPrintHelper) (gp : GridPoint) :
  gp_grid (makeBasePoint h gp) = gp_grid gp
  ∧ length (gp_args (makeBasePoint h gp)) = length (gp_args gp)
  ∧ (is_Some (getArg gp (_innerDim (getDims h))) →
     getArg (makeBasePoint h gp) (_innerDim (getDims h)) = Some (IdxConst 0))
  ∧ (∀ d, d ≠ _innerDim (getDims h) →
          getArg (makeBasePoint h gp) d = getArg gp d)
  ∧ makeBasePoint h (makeBasePoint h gp) = makeBasePoint h gp
  ∧ (∀ (fold : FoldShape) (d : string) (k ofs : Z),
       d ≠ _innerDim (getDims h) →
       fold_mult fold d = Some k →
       getArg gp d = Some (IdxOffset ofs) →
       alignedOffset k ofs ≠ ofs →
       getArg (makeBasePoint h gp) d = Some (IdxOffset ofs)
       ∧ getArg (foldBasePoint fold gp) d
         = Some (IdxOffset (alignedOffset k ofs))
       ∧ makeBasePoint h gp ≠ foldBasePoint fold gp)
  ∧ (∀ (fold : FoldShape) (ofs : Z),
       getArg gp (_innerDim (getDims h)) = Some (IdxOffset ofs) →
       getArg (makeBasePoint h gp) (_innerDim (getDims h))
       = Some (IdxConst 0)
       ∧ (∃ ofs', getArg (foldBasePoint fold gp) (_innerDim (getDims h))
                  = Some (IdxOffset ofs'))
       ∧ makeBasePoint h gp ≠ foldBasePoint fold gp).
Proof.
  split_and!.
  - done.
  - apply setArgConst_in_length.
  - apply getArg_makeBasePoint_inner.
  - intros d Hd. by apply getArg_makeBasePoint_ne.
  - unfold makeBasePoint, cloneGridPoint, setArgConst.
    cbn [gp_grid gp_args]. f_equal. apply setArgConst_in_idemp.
  - intros fold d k ofs Hd Hk Hofs Hna.
    assert (Hmake : getArg (makeBasePoint h gp) d = Some (IdxOffset ofs))
      by (by rewrite getArg_makeBasePoint_ne).
    assert (Hfold : getArg (foldBasePoint fold gp) d
                    = Some (IdxOffset (alignedOffset k ofs)))
      by (by rewrite getArg_foldBasePoint, Hofs, Hk).
    split_and!; [done|done|]. intros Heq. rewrite Heq, Hfold in Hmake.
    by injection Hmake.
  - intros fold ofs Hofs.
    assert (Hmake : getArg (makeBasePoint h gp) (_innerDim (getDims h))
                    = Some (IdxConst 0))
      by (apply getArg_makeBasePoint_inner; by eexists).
    assert (Hfold : ∃ ofs', getArg (foldBasePoint fold gp)
                              (_innerDim (getDims h))
                            = Some (IdxOffset ofs')).
    { rewrite getArg_foldBasePoint, Hofs.
      destruct (fold_mult fold (_innerDim (getDims h))); by eexists. }
    split_and!; [done|done|]. intros Heq. destruct Hfold as [ofs' Hfold].
    rewrite Heq, Hfold in Hmake. discriminate Hmake.
Qed.

Lemma makeBasePoint_inner_only_witness :
  getArg (makeBasePoint helper_example (u_at 0 1 3)) "x" = Some (IdxConst 0)
  ∧ getArg (makeBasePoint helper_example (u_at 0 1 3)) "y"
    = getArg (u_at 0 1 3) "y"
  ∧ (getArg (makeBasePoint helper_example (u_at 0 1 3)) "y"
     = Some (IdxOffset 3)
     ∧ getArg (foldBasePoint fold_4x2 (u_at 0 1 3)) "y"
       = Some (IdxOffset (alignedOffset 2 3))
     ∧ makeBasePoint helper_example (u_at 0 1 3)
       ≠ foldBasePoint fold_4x2 (u_at 0 1 3))
  ∧ (getArg (makeBasePoint helper_example (u_at 0 0 0)) "x"
     = Some (IdxConst 0)
     ∧ (∃ ofs', getArg (foldBasePoint fold_4x2 (u_at 0 0 0)) "x"
                = Some (IdxOffset ofs'))
     ∧ makeBasePoint helper_example (u_at 0 0 0)
       ≠ foldBasePoint fold_4x2 (u_at 0 0 0)).
Proof.
  destruct (makeBasePoint_inner_only helper_example (u_at 0 1 3))
    as (_ & _ & Hinner & Hother & _ & Hfold & _).
  destruct (makeBasePoint_inner_only helper_example (u_at 0 0 0))
    as (_ & _ & _ & _ & _ & _ & Hinner0).
  split; [|split; [|split]].
  - apply Hinner. by eexists.
  - apply Hother. done.
  - apply (Hfold fold_4x2 "y" 2 3); [done|reflexivity|reflexivity|].
    by vm_compute.
  - apply (Hinner0 fold_4x2 0). reflexivity.
Defined.

(** C7 (as stated) fails: for [u(t, x+1, y+3)] under the fold 4 by 2 the fold
    planner's base point has [y+2] where [makeBasePoint] leaves [y+3], and
    for [u(t, x+5, y)] it has [x+4] where [makeBasePoint] puts 0. *)
Lemma makeBasePoint_not_foldBasePoint :
  getArg (makeBasePoint helper_example (u_at 0 1 3)) "y"
  = Some (IdxOffset 3)
  ∧ getArg (foldBasePoint fold_4x2 (u_at 0 1 3)) "y" = Some (IdxOffset 2)
  ∧ makeBasePoint helper_example (u_at 0 1 3)
    ≠ foldBasePoint fold_4x2 (u_at 0 1 3)
  ∧ getArg (makeBasePoint helper_example (u_at 0 5 0)) "x"
    = Some (IdxConst 0)
  ∧ getArg (foldBasePoint fold_4x2 (u_at 0 5 0)) "x" = Some (IdxOffset 4).
Proof.
  split_and!; by vm_compute.
Qed.


Lemma lookupPointPtr_lookup (h : CppVecPrintHelper) (gp : GridPoint) :
  lookupPointPtr h gp = _vecPtrs h !! gp.
Proof.
  unfold lookupPointPtr. case_decide as H; [done|].
  symmetry. by apply eq_None_not_Some.
Qed.

Lemma min_list_snoc (l : list Z) (x : Z) :
  min_list (l ++ [x])
  = Some (match min_list l with
          | Some lo => if decide (x < lo) then x else lo
          | None => x
          end).
Proof.
  destruct l as [|y l]; [done|]. cbn [app min_list]. rewrite foldl_snoc.
  f_equal. case_decide; lia.
Qed.

Lemma max_list_snoc (l : list Z) (x : Z) :
  max_list (l ++ [x])
  = Some (match max_list l with
          | Some hi => if decide (hi < x) then x else hi
          | None => x
          end).
Proof.
  destruct l as [|y l]; [done|]. cbn [app max_list]. rewrite foldl_snoc.
  f_equal. case_decide; lia.
Qed.

Lemma extendPtrOfs_lo (h : CppVecPrintHelper) (p q : string) (ofs : Z) :
  _ptrOfsLo (extendPtrOfs h p ofs) !! q
  = if decide (q = p) then
      Some (match _ptrOfsLo h !! p with
            | Some lo => if decide (ofs < lo) then ofs else lo
            | None => ofs
            end)
    else _ptrOfsLo h !! q.
Proof.
  cbn [extendPtrOfs _ptrOfsLo].
  destruct (_ptrOfsLo h !! p) as [lo|] eqn:Hp; repeat case_decide; subst;
    rewrite ?lookup_insert_eq, ?lookup_insert_ne by done; done.
Qed.

Lemma extendPtrOfs_hi (h : CppVecPrintHelper) (p q : string) (ofs : Z) :
  _ptrOfsHi (extendPtrOfs h p ofs) !! q
  = if decide (q = p) then
      Some (match _ptrOfsHi h !! p with
            | Some hi => if decide (hi < ofs) then ofs else hi
            | None => ofs
            end)
    else _ptrOfsHi h !! q.
Proof.
  cbn [extendPtrOfs _ptrOfsHi].
  destruct (_ptrOfsHi h !! p) as [hi|] eqn:Hp; repeat case_decide; subst;
    rewrite ?lookup_insert_eq, ?lookup_insert_ne by done; done.
Qed.

Lemma makeBasePoint_dims (h h' : CppVecPrintHelper) (gp : GridPoint) :
  _dims h = _dims h' → makeBasePoint h gp = makeBasePoint h' gp.
Proof. unfold makeBasePoint, getDims. by intros ->. Qed.

Lemma innerOffset_dims (h h' : CppVecPrintHelper) (gp : GridPoint) :
  _dims h = _dims h' → innerOffset h gp = innerOffset h' gp.
Proof. unfold innerOffset, getDims. by intros ->. Qed.

Lemma name_inj (prefix : string) (k1 k2 : nat) :
  prefix +:+ pretty k1 = prefix +:+ pretty k2 → k1 = k2.
Proof. intros H. apply (inj _) in H. by apply (inj pretty) in H. Qed.

Lemma requestedOffsets_snoc (h0 : CppVecPrintHelper) (bgp gp : GridPoint)
    (done : list GridPoint) :
  requestedOffsets h0 bgp (done ++ [gp])
  = requestedOffsets h0 bgp done
    ++ (if decide (makeBasePoint h0 gp = bgp) then
          match innerOffset h0 gp with Some ofs => [ofs] | None => [] end
        else []).
Proof.
  unfold requestedOffsets. rewrite omap_app. f_equal. cbn.
  case_decide; [|done]. by destruct (innerOffset h0 gp).
Qed.

Lemma requestedOffsets_not_cached (h0 h : CppVecPrintHelper)
    (bgp : GridPoint) (done : list GridPoint) :
  cache_inv h0 h done → _vecPtrs h !! bgp = None →
  requestedOffsets h0 bgp done = [].
Proof.
  intros Hinv Hnone. unfold requestedOffsets.
  pose proof (inv_cached _ _ _ Hinv) as Hcached. clear Hinv.
  induction done as [|gp done IH]; [done|]. cbn [omap list_omap].
  rewrite decide_False.
  - apply IH. intros gp' Hgp'. apply Hcached. by right.
  - intros Heq. destruct (Hcached gp) as [p Hp]; [by left|]. congruence.
Qed.

(** The first half of a request: the base point is cached afterwards, under
    the name returned. *)
Lemma cache_inv_ensure (h0 h : CppVecPrintHelper) (done : list GridPoint)
    (bgp : GridPoint) :
  cache_inv h0 h done →
  ∃ p h1,
    match lookupPointPtr h bgp with
    | Some p => (p, h)
    | None => let '(var, h') := makeVarName h in (var, savePointPtr h' bgp var)
    end = (p, h1)
    ∧ cache_inv h0 h1 done
    ∧ _vecPtrs h1 !! bgp = Some p
    ∧ (is_Some (_vecPtrs h !! bgp) → h1 = h).
Proof.
  intros Hinv. rewrite lookupPointPtr_lookup.
  destruct (_vecPtrs h !! bgp) as [p|] eqn:Hbgp.
  { exists p, h. by split_and!. }
  destruct Hinv as [Hdims Hprefix Hnames Hinj Hlo Hhi Hcached Hrange].
  cbn [makeVarName]. eexists _, _. split; [done|].
  assert (∀ b q, _vecPtrs h !! b = Some q →
                 q ≠ _varPrefix h +:+ pretty (_varNum h)) as Hfresh.
  { intros b q Hb Hq. destruct (Hnames b q Hb) as (k & Hk & ->).
    rewrite Hprefix in Hq. apply name_inj in Hq. lia. }
  split_and!.
  - split; cbn [savePointPtr _dims _varPrefix _varNum _vecPtrs _ptrOfsLo
                  _ptrOfsHi]; try done.
    + intros b q. rewrite lookup_insert. case_decide as Hb.
      * intros [= <-]. exists (_varNum h). split; [lia|]. by rewrite Hprefix.
      * intros Hq. destruct (Hnames b q Hq) as (k & Hk & ->).
        exists k. split; [lia|done].
    + intros b1 b2 q. rewrite !lookup_insert.
      repeat case_decide; subst; try done.
      * intros [= <-] Hq. by destruct (Hfresh b2 _ Hq).
      * intros Hq [= <-]. by destruct (Hfresh b1 _ Hq).
      * apply Hinj.
    + intros q Hq. destruct (Hlo q Hq) as [b Hb]. exists b.
      rewrite lookup_insert_ne; [done|]. congruence.
    + intros q Hq. destruct (Hhi q Hq) as [b Hb]. exists b.
      rewrite lookup_insert_ne; [done|]. congruence.
    + intros gp Hgp. rewrite lookup_insert. case_decide; [by eexists|].
      by apply Hcached.
    + intros b q. rewrite lookup_insert. case_decide as Hb.
      * intros [= <-]. subst b.
        rewrite (requestedOffsets_not_cached h0 h bgp done); [|by split|done].
        cbn [min_list max_list]. split.
        -- apply eq_None_not_Some. intros Hq.
           destruct (Hlo _ Hq) as [b Hb]. by destruct (Hfresh b _ Hb).
        -- apply eq_None_not_Some. intros Hq.
           destruct (Hhi _ Hq) as [b Hb]. by destruct (Hfresh b _ Hb).
      * apply Hrange.
  - cbn. apply lookup_insert_eq.
  - by intros [? ?].
Qed.

(** The second half of a request: the offset range of the pointer grows by
    the offset of the access. *)
Lemma cache_inv_extend (h0 h : CppVecPrintHelper) (done : list GridPoint)
    (gp : GridPoint) (p : string) :
  cache_inv h0 h done →
  _vecPtrs h !! makeBasePoint h0 gp = Some p →
  cache_inv h0
    (match innerOffset h0 gp with
     | Some ofs => extendPtrOfs h p ofs
     | None => h
     end) (done ++ [gp]).
Proof.
  intros [Hdims Hprefix Hnames Hinj Hlo Hhi Hcached Hrange] Hp.
  assert (∀ g, g ∈ done ++ [gp] →
               is_Some (_vecPtrs h !! makeBasePoint h0 g)) as Hcached'.
  { intros g [Hg|Hg%list_elem_of_singleton]%elem_of_app;
      [by apply Hcached|subst; by eexists]. }
  destruct (innerOffset h0 gp) as [ofs|] eqn:Hofs.
  - split; cbn [extendPtrOfs _dims _varPrefix _varNum _vecPtrs]; try done;
      try exact Hcached'.
    + intros q. rewrite extendPtrOfs_lo. case_decide; [subst; by eauto|].
      apply Hlo.
    + intros q. rewrite extendPtrOfs_hi. case_decide; [subst; by eauto|].
      apply Hhi.
    + intros b q Hb. rewrite extendPtrOfs_lo, extendPtrOfs_hi.
      rewrite requestedOffsets_snoc, Hofs.
      destruct (Hrange b q Hb) as [Hqlo Hqhi].
      destruct (decide (q = p)) as [->|Hq].
      * assert (makeBasePoint h0 gp = b) as Hbase by (by eapply Hinj).
        rewrite decide_True by done.
        by rewrite min_list_snoc, max_list_snoc, <- Hqlo, <- Hqhi.
      * rewrite decide_False by congruence. by rewrite app_nil_r.
  - split; try done; try exact Hcached'.
    intros b q Hb. rewrite requestedOffsets_snoc, Hofs.
    case_decide; rewrite app_nil_r; by apply Hrange.
Qed.

Lemma cache_inv_request (h0 h : CppVecPrintHelper) (done : list GridPoint)
    (gp : GridPoint) :
  cache_inv h0 h done →
  cache_inv h0 (requestPointPtr h gp).2 (done ++ [gp]).
Proof.
  intros Hinv. unfold requestPointPtr.
  destruct (cache_inv_ensure h0 h done (makeBasePoint h gp) Hinv)
    as (p & h1 & -> & Hinv1 & Hp & _).
  cbn [snd].
  rewrite (innerOffset_dims h h0) by apply Hinv.
  rewrite (makeBasePoint_dims h h0) in Hp by apply Hinv.
  by apply cache_inv_extend.
Qed.

Lemma cache_inv_new (dims : Dimensions) (varPrefix : string) :
  cache_inv (new_CppVecPrintHelper dims varPrefix)
    (new_CppVecPrintHelper dims varPrefix) [].
Proof.
  split; cbn; try done.
  - intros p [x Hx]. by rewrite lookup_empty in Hx.
  - intros p [x Hx]. by rewrite lookup_empty in Hx.
  - intros gp Hgp. by apply elem_of_nil in Hgp.
Qed.

Lemma cache_inv_requestAll (h0 h : CppVecPrintHelper)
    (done gps : list GridPoint) :
  cache_inv h0 h done → cache_inv h0 (requestAll h gps) (done ++ gps).
Proof.
  revert h done. induction gps as [|gp gps IH]; intros h done Hinv.
  - by rewrite app_nil_r.
  - cbn [requestAll foldl]. fold (requestAll (requestPointPtr h gp).2 gps).
    replace (done ++ gp :: gps) with ((done ++ [gp]) ++ gps)
      by (by rewrite <- app_assoc).
    apply IH. by apply cache_inv_request.
Qed.

Lemma requestPointPtr_cached (h : CppVecPrintHelper) (gp : GridPoint) :
  _dims (requestPointPtr h gp).2 = _dims h
  ∧ _vecPtrs (requestPointPtr h gp).2 !! makeBasePoint h gp
    = Some (requestPointPtr h gp).1
  ∧ (∀ p, _vecPtrs h !! makeBasePoint h gp = Some p →
          (requestPointPtr h gp).1 = p
          ∧ _vecPtrs (requestPointPtr h gp).2 = _vecPtrs h
          ∧ _varNum (requestPointPtr h gp).2 = _varNum h).
Proof.
  unfold requestPointPtr. rewrite lookupPointPtr_lookup.
  destruct (_vecPtrs h !! makeBasePoint h gp) as [p|] eqn:Hp;
    destruct (innerOffset h gp) as [ofs|]; cbn; split_and!; try done;
    try apply lookup_insert_eq; by intros ? [= <-].
Qed.

(** C6.  Pointer cache: a saved pointer name is the one looked up; a second
    request for a point with the same base point returns the variable of the
    first and neither caches nor generates anything new; and after any run of
    requests on a new helper the range recorded for a cached pointer is the
    least and the greatest of the inner-dimension offsets requested from
    it. *)
Theorem pointer_cache_idempotent :
  (∀ h gp var, lookupPointPtr (savePointPtr h gp var) gp = Some var)
  ∧ (∀ h gp1 gp2,
       makeBasePoint h gp1 = makeBasePoint h gp2 →
       (requestPointPtr (requestPointPtr h gp1).2 gp2).1
       = (requestPointPtr h gp1).1
       ∧ _vecPtrs (requestPointPtr (requestPointPtr h gp1).2 gp2).2
         = _vecPtrs (requestPointPtr h gp1).2
       ∧ _varNum (requestPointPtr (requestPointPtr h gp1).2 gp2).2
         = _varNum (requestPointPtr h gp1).2)
  ∧ (∀ dims varPrefix gps bgp p,
       lookupPointPtr (requestAll (new_CppVecPrintHelper dims varPrefix) gps)
         bgp = Some p →
       _ptrOfsLo (requestAll (new_CppVecPrintHelper dims varPrefix) gps) !! p
       = min_list
           (requestedOffsets (new_CppVecPrintHelper dims varPrefix) bgp gps)
       ∧ _ptrOfsHi (requestAll (new_CppVecPrintHelper dims varPrefix) gps) !! p
         = max_list
             (requestedOffsets (new_CppVecPrintHelper dims varPrefix) bgp gps)).
Proof.
  split_and!.
  - intros h gp var. rewrite lookupPointPtr_lookup. apply lookup_insert_eq.
  - intros h gp1 gp2 Hbase.
    destruct (requestPointPtr_cached h gp1) as (Hdims & Hcached & _).
    destruct (requestPointPtr_cached (requestPointPtr h gp1).2 gp2)
      as (_ & _ & Hsame).
    apply Hsame.
    by rewrite (makeBasePoint_dims _ h), <- Hbase.
  - intros dims varPrefix gps bgp p. rewrite lookupPointPtr_lookup.
    apply (inv_range _ _ _
             (cache_inv_requestAll _ _ [] gps (cache_inv_new dims varPrefix))).
Qed.

Lemma pointer_cache_idempotent_witness :
  (requestPointPtr (requestPointPtr helper_example (u_at 0 1 0)).2
     (u_at 0 (-1) 0)).1
  = (requestPointPtr helper_example (u_at 0 1 0)).1
  ∧ _ptrOfsLo (requestAll helper_example requests_example) !! "temp0"
    = min_list [1; -1; 0]
  ∧ _ptrOfsHi (requestAll helper_example requests_example) !! "temp0"
    = max_list [1; -1; 0].
Proof.
  destruct pointer_cache_idempotent as (_ & Hsecond & Hrange).
  split.
  - apply (Hsecond helper_example (u_at 0 1 0) (u_at 0 (-1) 0)). reflexivity.
  - apply (Hrange dims_x "temp" requests_example
             (makeBasePoint helper_example (u_at 0 0 0))).
    by vm_compute.
Defined.
End CppProofs.

(** ** Coefficient solver *)

Module FdCoeffProofs.
Import FdCoeff FdCoeffSpec.

Lemma for_count_fails_first {St} (k : nat) (i : Z)
    (body : Z → St → outcome St) (s : St) (array : string) (index : list Z) :
  body i s = OutOfBounds array index →
  for_count (S k) i body s = OutOfBounds array index.
Proof. intros H. cbn [for_count]. by rewrite H. Qed.

Lemma for_upto_fails_first {St} (lo hi : Z) (body : Z → St → outcome St)
    (s : St) (array : string) (index : list Z) :
  lo ≤ hi → body lo s = OutOfBounds array index →
  for_upto lo hi body s = OutOfBounds array index.
Proof.
  intros Hle H. unfold for_upto.
  destruct (Z.to_nat (hi + 1 - lo)) as [|k] eqn:Hk; [lia|].
  by apply for_count_fails_first.
Qed.

Lemma arr_get_in (name : string) (a : list float) (i : Z) :
  0 ≤ i < Z.of_nat (length a) → ∃ x, arr_get name a i = Ok x.
Proof.
  intros Hi. unfold arr_get. rewrite decide_True by lia.
  destruct (lookup_lt_is_Some_2 a (Z.to_nat i)) as [x ->]; [lia|]. by eexists.
Qed.

(** At [m = 0] the recurrence for a cell below the diagonal reads plane
    [-1] of [d]. *)
Lemma lower_step_m_0 (eval_point : float) (order : Z) (points : list float)
    (num_points n v : Z) (s : locals) :
  0 ≤ order → 1 ≤ n < num_points → 0 ≤ v < num_points →
  Z.of_nat (length points) = num_points →
  lower_step eval_point order points num_points n v 0 s
  = OutOfBounds "d" [-1; n - 1; v].
Proof.
  intros Hord Hn Hv Hlen. unfold lower_step.
  destruct (arr_get_in "points" points n) as [pn ->]; [lia|]. cbn.
  unfold d_get.
  rewrite (decide_True (P := d_in_bounds order num_points 0 (n - 1) v))
    by (unfold d_in_bounds; lia).
  rewrite (decide_False (P := d_in_bounds order num_points (0 - 1) (n - 1) v))
    by (unfold d_in_bounds; lia).
  done.
Qed.

(** With two points or more, the first cell the solver computes makes it read
    [d[-1][0][0]]. *)
Lemma fd_coeff_reads_plane_minus_1 (eval_point : float) (order : Z)
    (points : list float) (num_points : Z) (coeff0 : list float) :
  0 ≤ order → 2 ≤ num_points → Z.of_nat (length points) = num_points →
  fd_coeff eval_point order points num_points coeff0
  = OutOfBounds "d" [-1; 0; 0].
Proof.
  intros Hord Hnp Hlen. unfold fd_coeff, d_set.
  rewrite decide_True by (unfold d_in_bounds; lia). cbn.
  rewrite (for_upto_fails_first _ _ _ _ "d" [-1; 0; 0]); [done|lia|].
  unfold n_step.
  rewrite (for_upto_fails_first _ _ _ _ "d" [-1; 0; 0]); [done|lia|].
  unfold v_step.
  destruct (arr_get_in "points" points 1) as [p1 ->]; [lia|].
  destruct (arr_get_in "points" points 0) as [p0 ->]; [lia|]. cbn.
  apply for_upto_fails_first; [unfold MIN; case_decide; lia|].
  by rewrite lower_step_m_0 by lia.
Qed.

(** C9.  The call [fd_coeff(coeff, 0.0f, 1, {0.0f, 1.0f}, 2)] stops at a read
    of [d[-1][0][0]], outside the table [d[2][2][2]]. *)
Theorem fd_coeff_out_of_bounds :
  fd_coeff zero 1 points_0_1 2 coeff_2 = OutOfBounds "d" [-1; 0; 0].
Proof. by vm_compute. Qed.

(** With a single point no cell is computed and the call is in bounds. *)
Lemma fd_coeff_one_point :
  fd_coeff zero 0 [zero] 1 [zero] = Ok [float_of_int 1].
Proof. by vm_compute. Qed.

End FdCoeffProofs.

(** ** More about loops *)

Section ForLoopFailure.
Context {St : Type}.
Implicit Types (body : Z → St → option St) (s : St).

(** A loop fails when some iteration fails in every state the earlier
    iterations can leave. *)
Lemma for_range_fails (Inv : Z → St → Prop) body n lo s k :
  Inv lo s → lo ≤ k < lo + Z.of_nat n →
  (∀ j t t', lo ≤ j < k → Inv j t → body j t = Some t' → Inv (j + 1) t') →
  (∀ t, Inv k t → body k t = None) →
  for_range n lo body s = None.
Proof.
  revert lo s. induction n as [|n IH]; intros lo s H0 Hk Hstep Hfail; [lia|].
  cbn [for_range]. destruct (decide (lo = k)) as [->|Hne].
  - by rewrite Hfail.
  - destruct (body lo s) as [t|] eqn:Hbody; [|done]. cbn.
    apply IH; [by apply (Hstep lo s); [lia|..]|lia| |done].
    intros j u u' Hj. apply Hstep. lia.
Qed.

Lemma for_loop_fails (Inv : Z → St → Prop) body lo hi s k :
  Inv lo s → lo ≤ k < hi →
  (∀ j t t', lo ≤ j < k → Inv j t → body j t = Some t' → Inv (j + 1) t') →
  (∀ t, Inv k t → body k t = None) →
  for_loop lo hi body s = None.
Proof.
  intros H0 Hk Hstep Hfail. unfold for_loop.
  apply (for_range_fails Inv _ _ _ _ k); [done|lia|done|done].
Qed.

Lemma for_loop_skip body lo hi s :
  (∀ j t, lo ≤ j < hi → body j t = Some t) → for_loop lo hi body s = Some s.
Proof.
  intros Hbody. destruct (decide (lo ≤ hi)) as [Hle|Hgt].
  - destruct (for_loop_inv (λ _ t, t = s) body lo hi s) as (t & -> & ->);
      [done|done| |done].
    intros j t Hj ->. exists s. split; [by apply Hbody|done].
  - apply for_loop_empty. lia.
Qed.
End ForLoopFailure.

(** ** More about vector registers *)

Module RealvMoreProofs.
Import Realv RealvSpec RealvOps RealvProofs MoreSpec.

(** X1.  The ends of the rotate: with [res] not the object [v2],
    [realv_align] at count 0 leaves a copy of [v3] in [res], and at count
    [VLEN] a copy of [v2]. *)
Theorem realv_align_count_0_and_VLEN (VLEN : Z) (res v2 v3 : nat) (m : mem)
    (r0 a b : realv) :
  m !! res = Some r0 → m !! v2 = Some a → m !! v3 = Some b →
  wf_realv VLEN r0 → wf_realv VLEN a → wf_realv VLEN b →
  res ≠ v2 →
  realv_align VLEN res v2 v3 0 m = Some (<[res := b]> m)
  ∧ realv_align VLEN res v2 v3 VLEN m = Some (<[res := a]> m).
Proof.
  intros Hres Hv2 Hv3 Hr0 Ha Hb Hne.
  assert (0 ≤ VLEN) as HV by (unfold wf_realv in Ha; lia).
  split.
  - destruct (realv_align_lanes VLEN res v2 v3 0 m r0 a b)
      as (r & -> & Hwf & Hlanes); [done..|lia|].
    do 2 f_equal. unfold wf_realv in *. apply rd_ext; [lia|]. intros i.
    destruct (decide (0 ≤ i < VLEN)) as [Hi|Hi].
    + rewrite Hlanes, rd_app by lia. rewrite decide_True by lia.
      f_equal. lia.
    + destruct (decide (0 ≤ i)); [|by rewrite !rd_neg by lia].
      by rewrite !rd_beyond by lia.
  - destruct (realv_align_lanes VLEN res v2 v3 VLEN m r0 a b)
      as (r & -> & Hwf & Hlanes); [done..|lia|].
    do 2 f_equal. unfold wf_realv in *. apply rd_ext; [lia|]. intros i.
    destruct (decide (0 ≤ i < VLEN)) as [Hi|Hi].
    + rewrite Hlanes, rd_app by lia. rewrite decide_False by lia.
      f_equal. lia.
    + destruct (decide (0 ≤ i)); [|by rewrite !rd_neg by lia].
      by rewrite !rd_beyond by lia.
Qed.

Lemma realv_align_count_0_and_VLEN_witness :
  realv_align 4 0 2 1 0 four_regs = Some (<[0%nat := [3; 2; 1; 0]]> four_regs)
  ∧ realv_align 4 0 2 1 4 four_regs
    = Some (<[0%nat := [50; 60; 70; 80]]> four_regs).
Proof.
  apply (realv_align_count_0_and_VLEN 4 0 2 1 four_regs [10; 20; 30; 40]);
    [reflexivity|reflexivity|reflexivity|reflexivity|reflexivity|reflexivity
    |lia].
Defined.

(** X2.  A count below 0 or above [VLEN] makes [realv_align] index outside a
    register: below 0 the first loop reads [v3.r[count]], above [VLEN] the
    second loop writes [res.r[VLEN - count]]. *)
Theorem realv_align_count_out_of_range (VLEN : Z) (res v2 v3 : nat)
    (count : Z) (m : mem) :
  0 ≤ VLEN → count < 0 ∨ VLEN < count →
  realv_align VLEN res v2 v3 count m = None.
Proof.
  intros HV [Hneg|Hbig]; unfold realv_align.
  - rewrite (for_loop_fails (λ _ _, True) _ 0 (VLEN - count) m 0);
      [done|done|lia|done|].
    intros t _. unfold load. destruct (t !! v3) as [v|]; [|done]. cbn.
    by rewrite rd_neg by lia.
  - rewrite for_loop_empty by lia. cbn.
    apply (for_loop_fails (λ _ _, True) _ _ _ _ (VLEN - count));
      [done|lia|done|].
    intros t _. destruct (load t v2 _) as [x|]; [|done]. cbn.
    unfold store. destruct (t !! res) as [v|]; [|done]. cbn.
    unfold wr. rewrite decide_False; [done|lia].
Qed.

Lemma realv_align_count_out_of_range_witness :
  realv_align 4 0 2 1 5 four_regs = None
  ∧ realv_align 4 0 2 1 (-1) four_regs = None.
Proof.
  split.
  - apply (realv_align_count_out_of_range 4 0 2 1 5 four_regs); lia.
  - apply (realv_align_count_out_of_range 4 0 2 1 (-1) four_regs); lia.
Defined.

(** X3.  [realv_permute] works in place: whichever of [res], [ctrl] and [v3]
    are the same object, lane [i] of the result is lane [ctrl.ci[i]] of what
    [v3] held before the call; with the control [0, 1, ...] the result is a
    copy of [v3]. *)
Theorem realv_permute_in_place (VLEN : Z) (res ctrl v3 : nat) (m : mem)
    (r0 c0 t0 : realv) :
  m !! res = Some r0 → m !! ctrl = Some c0 → m !! v3 = Some t0 →
  wf_realv VLEN r0 → wf_realv VLEN c0 → wf_realv VLEN t0 →
  Forall (λ c, 0 ≤ c < VLEN) c0 →
  ∃ r, realv_permute VLEN res ctrl v3 m = Some (<[res := r]> m)
       ∧ wf_realv VLEN r
       ∧ (∀ i c, 0 ≤ i < VLEN → rd c0 i = Some c → rd r i = rd t0 c)
       ∧ ((∀ i, 0 ≤ i < VLEN → rd c0 i = Some i) → r = t0).
Proof.
  intros Hres Hctrl Hv3 Hr0 Hc0 Ht0 Hidx.
  destruct (realv_permute_lanes VLEN res ctrl v3 m r0 c0 t0)
    as (r & Hr & Hwf & Hlanes); [done..|].
  exists r. split_and!; [done|done| |].
  - intros i c Hi Hc. by rewrite Hlanes, Hc.
  - intros Hid. unfold wf_realv in *. apply rd_ext; [lia|]. intros i.
    destruct (decide (0 ≤ i < VLEN)) as [Hi|Hi].
    + by rewrite Hlanes, Hid.
    + destruct (decide (0 ≤ i)); [|by rewrite !rd_neg by lia].
      by rewrite !rd_beyond by lia.
Qed.

Lemma realv_permute_in_place_witness :
  ∃ r, realv_permute 4 0 1 0 four_regs = Some (<[0%nat := r]> four_regs)
       ∧ wf_realv 4 r
       ∧ (∀ i c, 0 ≤ i < 4 → rd [3; 2; 1; 0] i = Some c →
                 rd r i = rd [10; 20; 30; 40] c)
       ∧ ((∀ i, 0 ≤ i < 4 → rd [3; 2; 1; 0] i = Some i) →
          r = [10; 20; 30; 40]).
Proof.
  apply (realv_permute_in_place 4 0 1 0 four_regs [10; 20; 30; 40]);
    [reflexivity|reflexivity|reflexivity|reflexivity|reflexivity|reflexivity|].
  repeat constructor; lia.
Defined.

(** X4.  A control lane that is not a lane index makes [realv_permute] read
    outside the copy of [v3]. *)
Theorem realv_permute_control_out_of_range (VLEN : Z) (res ctrl v3 : nat)
    (m : mem) (r0 c0 t0 : realv) (k c : Z) :
  m !! res = Some r0 → m !! ctrl = Some c0 → m !! v3 = Some t0 →
  wf_realv VLEN r0 → wf_realv VLEN c0 → wf_realv VLEN t0 →
  0 ≤ k < VLEN → rd c0 k = Some c → c < 0 ∨ VLEN ≤ c →
  realv_permute VLEN res ctrl v3 m = None.
Proof.
  unfold wf_realv. intros Hres Hctrl Hv3 Hr0 Hc0 Ht0 Hk Hc Hbad.
  unfold realv_permute. rewrite Hv3. cbn.
  apply (for_loop_fails
           (λ j t, ∃ r, t = <[res := r]> m ∧ length r = length r0 ∧
                        ∀ i, j ≤ i → rd r i = rd r0 i) _ 0 VLEN m k);
    [|lia| |].
  - exists r0. by rewrite insert_id.
  - intros j t t' Hj (r & -> & Hlen & Hr) Hbody.
    destruct (load _ ctrl j) as [cj|]; [|done]. cbn in Hbody.
    destruct (rd t0 cj) as [x|]; [|done]. cbn in Hbody.
    unfold store in Hbody. rewrite lookup_insert_eq in Hbody. cbn in Hbody.
    unfold wr in Hbody. case_decide as Hin; [|done].
    injection Hbody as <-. rewrite insert_insert_eq.
    eexists. split; [done|]. split; [by rewrite length_insert|].
    intros i Hi. rewrite rd_insert by lia. rewrite decide_False by lia.
    apply Hr. lia.
  - intros t (r & -> & Hlen & Hr).
    assert (load (<[res := r]> m) ctrl k = Some c) as ->.
    { destruct (decide (ctrl = res)) as [->|Hne].
      - rewrite (load_at _ _ r) by apply lookup_insert_eq.
        rewrite Hr by lia. congruence.
      - rewrite (load_at _ _ c0) by (by rewrite lookup_insert_ne). done. }
    cbn. destruct Hbad; [by rewrite rd_neg|by rewrite rd_beyond by lia].
Qed.

Lemma realv_permute_control_out_of_range_witness :
  realv_permute 4 0 3 2 four_regs = None.
Proof.
  apply (realv_permute_control_out_of_range 4 0 3 2 four_regs
           [10; 20; 30; 40] [1; 2; 3; 4] [50; 60; 70; 80] 3 4);
    [reflexivity|reflexivity|reflexivity|reflexivity|reflexivity|reflexivity
    |lia|reflexivity|lia].
Defined.

(** X5.  Permuting a register in place by a control and then by a control
    that inverts it gives the register back. *)
Theorem realv_permute_inverse (VLEN : Z) (v ctrl inv : nat) (m : mem)
    (v0 c0 i0 : realv) :
  m !! v = Some v0 → m !! ctrl = Some c0 → m !! inv = Some i0 →
  wf_realv VLEN v0 → wf_realv VLEN c0 → wf_realv VLEN i0 →
  v ≠ ctrl → v ≠ inv →
  Forall (λ c, 0 ≤ c < VLEN) c0 → Forall (λ c, 0 ≤ c < VLEN) i0 →
  (∀ i j, 0 ≤ i < VLEN → rd i0 i = Some j → rd c0 j = Some i) →
  realv_permute VLEN v ctrl v m ≫= realv_permute VLEN v inv v = Some m.
Proof.
  intros Hv Hctrl Hinv Hv0 Hc0 Hi0 Hvc Hvi Hcr Hir Hinverse.
  destruct (realv_permute_lanes VLEN v ctrl v m v0 c0 v0)
    as (r1 & -> & Hwf1 & Hlanes1); [done..|]. cbn.
  destruct (realv_permute_lanes VLEN v inv v (<[v := r1]> m) r1 i0 r1)
    as (r2 & -> & Hwf2 & Hlanes2);
    [apply lookup_insert_eq|by rewrite lookup_insert_ne|apply lookup_insert_eq
    |done..|].
  rewrite insert_insert_eq. f_equal.
  assert (r2 = v0) as ->; [|by apply insert_id].
  unfold wf_realv in *. apply rd_ext; [lia|]. intros i.
  destruct (decide (0 ≤ i < VLEN)) as [Hi|Hi].
  - rewrite Hlanes2 by done.
    destruct (rd_is_Some i0 i) as [j Hj]; [lia|]. rewrite Hj. cbn.
    assert (0 ≤ j < VLEN) as Hjr.
    { rewrite rd_lookup in Hj by lia. rewrite Forall_forall in Hir.
      apply list_elem_of_lookup_2 in Hj. by apply Hir. }
    rewrite Hlanes1 by done. rewrite (Hinverse i j) by done. cbn.
    destruct (rd_is_Some v0 i) as [x Hx]; [lia|]. done.
  - destruct (decide (0 ≤ i)); [|by rewrite !rd_neg by lia].
    by rewrite !rd_beyond by lia.
Qed.

Lemma realv_permute_inverse_witness :
  realv_permute 4 0 1 0 four_regs ≫= realv_permute 4 0 1 0 = Some four_regs.
Proof.
  apply (realv_permute_inverse 4 0 1 1 four_regs
           [10; 20; 30; 40] [3; 2; 1; 0] [3; 2; 1; 0]);
    [reflexivity|reflexivity|reflexivity|reflexivity|reflexivity|reflexivity
    |lia|lia| | |].
  - repeat constructor; lia.
  - repeat constructor; lia.
  - intros i j Hi.
    assert (i = 0 ∨ i = 1 ∨ i = 2 ∨ i = 3) as [-> | [-> | [-> | ->]]] by lia;
      intros [= <-]; reflexivity.
Defined.

(** X6.  A mask without a selected lane: the masked [realv_align] and
    [realv_permute] return the store as it was, reading no register lane, so
    also when [res] is [v2] or control lanes are out of range. *)
Theorem masked_nothing_selected (VLEN k1 : Z) :
  VLEN ≤ 32 →
  (∀ i, 0 ≤ i < VLEN → Z.land (Z.shiftr k1 i) 1 = 0) →
  (∀ (res v2 v3 : nat) (count : Z) (m : mem),
     0 ≤ count ≤ VLEN →
     realv_align_mask VLEN res v2 v3 count k1 m = Some m)
  ∧ (∀ (res ctrl v3 : nat) (m : mem),
       is_Some (m !! v3) →
       realv_permute_mask VLEN res ctrl v3 k1 m = Some m).
Proof.
  intros HV Hzero. split.
  - intros res v2 v3 count m Hcount. unfold realv_align_mask.
    rewrite for_loop_skip; [cbn; apply for_loop_skip|];
      intros j t Hj; by rewrite mask_bit_off by (try apply Hzero; lia).
  - intros res ctrl v3 m [tmp Htmp]. unfold realv_permute_mask.
    rewrite Htmp. cbn.
    apply for_loop_skip.
    intros j t Hj. by rewrite mask_bit_off by (try apply Hzero; lia).
Qed.

Lemma masked_nothing_selected_witness :
  realv_align_mask 4 2 2 1 1 16 four_regs = Some four_regs
  ∧ realv_permute_mask 4 0 3 2 16 four_regs = Some four_regs.
Proof.
  destruct (masked_nothing_selected 4 16) as [Halign Hpermute]; [lia| |].
  - intros i Hi.
    assert (i = 0 ∨ i = 1 ∨ i = 2 ∨ i = 3) as [-> | [-> | [-> | ->]]] by lia;
      reflexivity.
  - split.
    + apply Halign. lia.
    + apply Hpermute. by eexists.
Defined.

(** X7.  A mask that selects every lane: the masked [realv_align] and
    [realv_permute] do what the unmasked ones do, failing where they fail. *)
Theorem masked_all_selected (VLEN k1 : Z) :
  VLEN ≤ 32 →
  (∀ i, 0 ≤ i < VLEN → Z.land (Z.shiftr k1 i) 1 = 1) →
  (∀ (res v2 v3 : nat) (count : Z) (m : mem),
     0 ≤ count ≤ VLEN →
     realv_align_mask VLEN res v2 v3 count k1 m
     = realv_align VLEN res v2 v3 count m)
  ∧ (∀ (res ctrl v3 : nat) (m : mem),
       realv_permute_mask VLEN res ctrl v3 k1 m
       = realv_permute VLEN res ctrl v3 m).
Proof.
  intros HV Hone. split.
  - intros res v2 v3 count m Hcount. unfold realv_align_mask, realv_align.
    rewrite (for_loop_ext _
               (λ i m, x ← load m v3 (i + count); store m res i x)).
    + destruct (for_loop 0 _ _ m) as [m1|]; [|done]. cbn.
      apply for_loop_ext. intros j t Hj.
      by rewrite mask_bit_on by (try apply Hone; lia).
    + intros j t Hj. by rewrite mask_bit_on by (try apply Hone; lia).
  - intros res ctrl v3 m. unfold realv_permute_mask, realv_permute.
    destruct (m !! v3) as [tmp|]; [|done]. cbn.
    apply for_loop_ext. intros j t Hj.
    by rewrite mask_bit_on by (try apply Hone; lia).
Qed.

Lemma masked_all_selected_witness :
  realv_align_mask 4 0 2 1 1 15 four_regs = realv_align 4 0 2 1 1 four_regs
  ∧ realv_permute_mask 4 0 1 2 15 four_regs = realv_permute 4 0 1 2 four_regs.
Proof.
  destruct (masked_all_selected 4 15) as [Halign Hpermute]; [lia| |].
  - intros i Hi.
    assert (i = 0 ∨ i = 1 ∨ i = 2 ∨ i = 3) as [-> | [-> | [-> | ->]]] by lia;
      reflexivity.
  - split.
    + apply Halign. lia.
    + apply Hpermute.
Defined.

(** *** Comparisons together *)

Lemma REAL_eq_not_ordered (rb : real_bytes) (x y : Z) :
  REAL_ne rb x y = false → REAL_lt rb x y = false ∧ REAL_gt rb x y = false.
Proof.
  unfold REAL_ne, REAL_lt, REAL_gt, SFeqb, SFltb.
  rewrite (SFcompare_antisym (REAL_of_bits rb x) (REAL_of_bits rb y)).
  by destruct (SFcompare _ _) as [[]|].
Qed.

Lemma eq_from_sym (rb : real_bytes) (n : nat) (j : Z) (a b : realv) :
  eq_from rb n j a b = eq_from rb n j b a.
Proof.
  revert j. induction n as [|n IH]; intros j; [done|]. cbn [eq_from].
  destruct (rd a j) as [x|], (rd b j) as [y|]; cbn; try done.
  by rewrite (REAL_ne_sym rb x y), IH.
Qed.

Lemma lt_from_equal_lanes (rb : real_bytes) (n : nat) (j : Z) (a b : realv) :
  eq_from rb n j a b = Some true → lt_from rb n j a b = Some false.
Proof.
  revert j. induction n as [|n IH]; intros j; [done|].
  cbn [eq_from lt_from].
  destruct (rd a j) as [x|], (rd b j) as [y|]; cbn; try done.
  destruct (REAL_ne rb x y) eqn:Hne; [done|].
  destruct (REAL_eq_not_ordered rb x y Hne) as [-> ->]. apply IH.
Qed.

(** The loop of [operator==] answers [false] at the first lane that
    differs. *)
Lemma eq_from_first_differing (rb : real_bytes) (n : nat) (j : Z)
    (a b : realv) :
  eq_from rb n j a b = Some false →
  ∃ k x y, j ≤ k ∧ rd a k = Some x ∧ rd b k = Some y ∧
           REAL_ne rb x y = true ∧
           ∀ i x' y', j ≤ i < k → rd a i = Some x' → rd b i = Some y' →
                      REAL_ne rb x' y' = false.
Proof.
  revert j. induction n as [|n IH]; intros j; [done|]. cbn [eq_from].
  destruct (rd a j) as [x|] eqn:Hx; [|done].
  destruct (rd b j) as [y|] eqn:Hy; [|done]. cbn.
  destruct (REAL_ne rb x y) eqn:Hne.
  - intros _. exists j, x, y. split_and!; try done; try lia.
  - intros Hrest.
    destruct (IH (j + 1) Hrest) as (k & x' & y' & Hk & Hx' & Hy' & Hd & Hb).
    exists k, x', y'. split_and!; try done; try lia.
    intros i x'' y'' Hi Hx'' Hy''.
    destruct (decide (i = j)) as [->|Hij]; [congruence|].
    apply (Hb i); [lia|done|done].
Qed.

(** X8.  [operator==] is symmetric, and registers it finds equal are
    neither less nor greater than each other. *)
Theorem realv_eq_sym_not_ordered (VLEN : Z) (rb : real_bytes) (a b : realv) :
  realv_eq VLEN rb a b = realv_eq VLEN rb b a
  ∧ (realv_eq VLEN rb a b = Some true →
     realv_lt VLEN rb a b = Some false ∧ realv_gt VLEN rb a b = Some false).
Proof.
  unfold realv_eq, realv_lt, realv_gt. split; [apply eq_from_sym|].
  intros Heq. split; [by apply lt_from_equal_lanes|].
  rewrite gt_from_mirror. apply lt_from_equal_lanes. by rewrite eq_from_sym.
Qed.

Lemma realv_eq_sym_not_ordered_witness :
  realv_lt 2 REAL_BYTES_4 [float_pos_zero; float_1] [float_neg_zero; float_1]
  = Some false
  ∧ realv_gt 2 REAL_BYTES_4 [float_pos_zero; float_1] [float_neg_zero; float_1]
    = Some false.
Proof.
  apply (realv_eq_sym_not_ordered 2 REAL_BYTES_4
           [float_pos_zero; float_1] [float_neg_zero; float_1]).
  reflexivity.
Defined.

(** X9.  Between registers without NaN lanes exactly one of [==], [<] and
    [>] holds. *)
Theorem realv_trichotomy (VLEN : Z) (rb : real_bytes) (a b : realv) :
  wf_realv VLEN a → wf_realv VLEN b → no_NaN rb a → no_NaN rb b →
  (realv_eq VLEN rb a b = Some true ∧ realv_lt VLEN rb a b = Some false
   ∧ realv_gt VLEN rb a b = Some false)
  ∨ (realv_eq VLEN rb a b = Some false ∧ realv_lt VLEN rb a b = Some true
     ∧ realv_gt VLEN rb a b = Some false)
  ∨ (realv_eq VLEN rb a b = Some false ∧ realv_lt VLEN rb a b = Some false
     ∧ realv_gt VLEN rb a b = Some true).
Proof.
  intros Ha Hb Hna Hnb.
  destruct (eq_from_is_Some rb (Z.to_nat VLEN) 0 a b) as [[] Heq];
    [unfold wf_realv in *; lia..| |].
  - left. split; [done|]. unfold realv_lt, realv_gt.
    split; [by apply lt_from_equal_lanes|].
    rewrite gt_from_mirror. apply lt_from_equal_lanes. by rewrite eq_from_sym.
  - right.
    destruct (eq_from_first_differing rb _ _ a b Heq)
      as (k & x & y & Hk & Hx & Hy & Hne & Hbefore).
    assert (first_differing rb a b k x y) as Hfirst by done.
    assert (first_differing rb b a k y x) as Hfirst'.
    { unfold first_differing. rewrite (REAL_ne_sym rb y x).
      split_and!; try done. intros i x' y' Hi Hx' Hy'.
      rewrite (REAL_ne_sym rb x' y'). by apply (Hbefore i). }
    pose proof (first_differing_decides VLEN rb a b k x y Ha Hb Hna Hnb Hfirst)
      as Hlt.
    pose proof (first_differing_decides VLEN rb b a k y x Hb Ha Hnb Hna Hfirst')
      as Hgt.
    unfold realv_eq, realv_gt. rewrite gt_from_mirror.
    fold (realv_lt VLEN rb b a). rewrite Hlt, Hgt.
    rewrite (REAL_ne_ordered rb x y) in Hne
      by (first [by eapply (no_NaN_rd rb a)|by eapply (no_NaN_rd rb b)]).
    change (REAL_lt rb y x) with (REAL_gt rb x y).
    destruct (REAL_lt rb x y) eqn:Hxy.
    + left. by rewrite (REAL_lt_asym rb x y Hxy).
    + right. cbn in Hne. by rewrite Hne.
Qed.

Lemma realv_trichotomy_witness :
  (realv_eq 2 REAL_BYTES_4 [float_1; float_2] [float_1; float_5] = Some true
   ∧ realv_lt 2 REAL_BYTES_4 [float_1; float_2] [float_1; float_5]
     = Some false
   ∧ realv_gt 2 REAL_BYTES_4 [float_1; float_2] [float_1; float_5]
     = Some false)
  ∨ (realv_eq 2 REAL_BYTES_4 [float_1; float_2] [float_1; float_5]
     = Some false
     ∧ realv_lt 2 REAL_BYTES_4 [float_1; float_2] [float_1; float_5]
       = Some true
     ∧ realv_gt 2 REAL_BYTES_4 [float_1; float_2] [float_1; float_5]
       = Some false)
  ∨ (realv_eq 2 REAL_BYTES_4 [float_1; float_2] [float_1; float_5]
     = Some false
     ∧ realv_lt 2 REAL_BYTES_4 [float_1; float_2] [float_1; float_5]
       = Some false
     ∧ realv_gt 2 REAL_BYTES_4 [float_1; float_2] [float_1; float_5]
       = Some true).
Proof.
  apply (realv_trichotomy 2 REAL_BYTES_4 [float_1; float_2] [float_1; float_5]);
    [reflexivity|reflexivity| |];
    repeat constructor; by vm_compute.
Defined.

(** *** The tolerance test *)

Lemma within_tolerance_from_all (wt : Z → Z → Z → bool) (n : nat) (j : Z)
    (val ref epsilon : realv) :
  0 ≤ j → j + Z.of_nat n ≤ Z.of_nat (length val) →
  j + Z.of_nat n ≤ Z.of_nat (length ref) →
  j + Z.of_nat n ≤ Z.of_nat (length epsilon) →
  ∃ ans, within_tolerance_from wt n j val ref epsilon = Some ans ∧
         (ans = true ↔
          ∀ i x y e, j ≤ i < j + Z.of_nat n → rd val i = Some x →
                     rd ref i = Some y → rd epsilon i = Some e →
                     wt x y e = true).
Proof.
  revert j. induction n as [|n IH]; intros j Hj Hv Hr He.
  - exists true. split; [done|]. split; [|done]. intros _ i x y e Hi. lia.
  - cbn [within_tolerance_from].
    destruct (rd_is_Some val j) as [x Hx]; [lia|].
    destruct (rd_is_Some ref j) as [y Hy]; [lia|].
    destruct (rd_is_Some epsilon j) as [e Hee]; [lia|].
    rewrite Hx, Hy, Hee. cbn.
    destruct (wt x y e) eqn:Hwt; cbn.
    + destruct (IH (j + 1)) as (ans & -> & Hans); [lia..|].
      exists ans. split; [done|]. rewrite Hans. split.
      * intros Hall i x' y' e' Hi Hx' Hy' He'.
        destruct (decide (i = j)) as [->|Hij]; [congruence|].
        apply (Hall i); [lia|done..].
      * intros Hall i x' y' e' Hi. apply Hall. lia.
    + exists false. split; [done|]. split; [done|]. intros Hall.
      rewrite (Hall j x y e) in Hwt; [done|lia|done..].
Qed.

(** X10.  The tolerance test on registers returns, and answers [true]
    exactly when the scalar test holds in every lane. *)
Theorem within_tolerance_every_lane (VLEN : Z) (wt : Z → Z → Z → bool)
    (val ref epsilon : realv) :
  wf_realv VLEN val → wf_realv VLEN ref → wf_realv VLEN epsilon →
  ∃ ans, within_tolerance VLEN wt val ref epsilon = Some ans ∧
         (ans = true ↔
          ∀ i x y e, 0 ≤ i < VLEN → rd val i = Some x → rd ref i = Some y →
                     rd epsilon i = Some e → wt x y e = true).
Proof.
  unfold wf_realv, within_tolerance. intros Hv Hr He.
  destruct (within_tolerance_from_all wt (Z.to_nat VLEN) 0 val ref epsilon)
    as (ans & Hans & Hiff); [lia..|].
  exists ans. split; [done|].
  by replace (0 + Z.of_nat (Z.to_nat VLEN)) with VLEN in Hiff by lia.
Qed.

Lemma within_tolerance_every_lane_witness :
  ∃ ans, within_tolerance 2 (λ x y e, Z.abs (x - y) <=? e)
           [10; 20] [11; 18] [1; 2] = Some ans ∧
         (ans = true ↔
          ∀ i x y e, 0 ≤ i < 2 → rd [10; 20] i = Some x →
                     rd [11; 18] i = Some y → rd [1; 2] i = Some e →
                     (Z.abs (x - y) <=? e) = true).
Proof.
  apply (within_tolerance_every_lane 2 (λ x y e, Z.abs (x - y) <=? e)
           [10; 20] [11; 18] [1; 2]); reflexivity.
Defined.

(** *** Whole-register moves *)

Lemma whole_register_move (VLEN : Z) (dst src : nat) (m : mem)
    (d0 s0 : realv) :
  m !! dst = Some d0 → m !! src = Some s0 →
  wf_realv VLEN d0 → wf_realv VLEN s0 →
  for_loop 0 VLEN (λ i m, x ← load m src i; store m dst i x) m
  = Some (<[dst := s0]> m).
Proof.
  unfold wf_realv. intros Hdst Hsrc Hd0 Hs0.
  destruct (copy_loop (λ _, Some true) dst src 0 0 VLEN m d0 s0)
    as (r & Hr & Hlen & Hlanes); [done|done|lia|lia| |done|].
  { intros i Hi. exists true. split; [done|lia]. }
  rewrite (for_loop_ext _
             (λ i m, b ← Some true;
                     if b : bool then x ← load m src (i + 0); store m dst i x
                     else Some m)).
  - rewrite Hr. do 2 f_equal. apply rd_ext; [lia|]. intros i.
    rewrite Hlanes. case_decide; [f_equal; lia|].
    destruct (decide (0 ≤ i)); [|by rewrite !rd_neg by lia].
    by rewrite !rd_beyond by lia.
  - intros j t Hj. cbn. by rewrite Z.add_0_r.
Qed.

(** X11.  [storeTo] followed by [loadFrom] at the same place: the loading
    register and the place both hold the lanes the storing register had, bit
    for bit, whichever of the three objects coincide, and nothing else
    changes; [copy] does the move in one step. *)
Theorem storeTo_loadFrom_round_trip (VLEN : Z) (x to y : nat) (m : mem)
    (x0 t0 y0 : realv) :
  m !! x = Some x0 → m !! to = Some t0 → m !! y = Some y0 →
  wf_realv VLEN x0 → wf_realv VLEN t0 → wf_realv VLEN y0 →
  storeTo VLEN x to m ≫= loadFrom VLEN y to
  = Some (<[y := x0]> (<[to := x0]> m))
  ∧ copy VLEN y x m = Some (<[y := x0]> m).
Proof.
  intros Hx Hto Hy Hx0 Ht0 Hy0. split.
  - unfold storeTo, loadFrom.
    rewrite (whole_register_move VLEN to x m t0 x0) by done. cbn.
    destruct (decide (y = to)) as [->|Hne].
    + apply (whole_register_move VLEN to to _ x0 x0);
        [apply lookup_insert_eq..|done|done].
    + apply (whole_register_move VLEN y to _ y0 x0);
        [by rewrite lookup_insert_ne|apply lookup_insert_eq|done|done].
  - unfold copy. by apply (whole_register_move VLEN y x m y0 x0).
Qed.

Lemma storeTo_loadFrom_round_trip_witness :
  storeTo 4 0 2 four_regs ≫= loadFrom 4 3 2
  = Some (<[3%nat := [10; 20; 30; 40]]>
            (<[2%nat := [10; 20; 30; 40]]> four_regs))
  ∧ copy 4 3 0 four_regs = Some (<[3%nat := [10; 20; 30; 40]]> four_regs).
Proof.
  apply (storeTo_loadFrom_round_trip 4 0 2 3 four_regs
           [10; 20; 30; 40] [50; 60; 70; 80] [1; 2; 3; 4]); reflexivity.
Defined.

(** *** Broadcast *)

Lemma assign_REAL_lanes (VLEN : Z) (this : nat) (val : Z) (m : mem)
    (r0 : realv) :
  m !! this = Some r0 → wf_realv VLEN r0 →
  assign_REAL VLEN this val m
  = Some (<[this := replicate (Z.to_nat VLEN) val]> m).
Proof.
  unfold wf_realv, assign_REAL. intros Hthis Hr0.
  destruct (for_loop_inv
              (λ j t, ∃ r, t = <[this := r]> m ∧
                           lanes_after (λ _, Some true) 0 j
                             (λ _, Some val) r0 r)
              (λ i m, store m this i val) 0 VLEN m)
    as (t & -> & r & -> & Hlen & Hlanes); [lia| | |].
  - exists r0. split; [by rewrite insert_id|]. apply lanes_after_start.
  - intros j t Hj (r & -> & Hr).
    rewrite (store_at _ _ r) by
      (try apply lookup_insert_eq; destruct Hr as [-> _]; lia).
    rewrite insert_insert_eq. eexists. split; [done|]. eexists. split; [done|].
    apply lanes_after_write; [lia|lia|done|done|done].
  - do 2 f_equal. apply rd_ext; [rewrite length_replicate; lia|]. intros i.
    rewrite Hlanes. case_decide as Hi.
    + rewrite rd_lookup by lia. symmetry. apply lookup_replicate_2. lia.
    + destruct (decide (0 ≤ i)); [|by rewrite !rd_neg by lia].
      rewrite !rd_beyond; [done|rewrite length_replicate; lia|lia].
Qed.

Lemma rd_replicate (n : nat) (x i : Z) :
  0 ≤ i < Z.of_nat n → rd (replicate n x) i = Some x.
Proof.
  intros Hi. rewrite rd_lookup by lia. apply lookup_replicate_2. lia.
Qed.

Lemma lt_from_replicate (rb : real_bytes) (N n : nat) (j x y : Z) :
  0 ≤ j → j + Z.of_nat n ≤ Z.of_nat N → (0 < n)%nat →
  lt_from rb n j (replicate N x) (replicate N y) = Some (REAL_lt rb x y).
Proof.
  revert j. induction n as [|n IH]; intros j Hj HN Hn; [lia|].
  cbn [lt_from]. rewrite !rd_replicate by lia. cbn.
  destruct (REAL_lt rb x y) eqn:Hlt; [done|].
  destruct (REAL_gt rb x y) eqn:Hgt; [done|].
  destruct n as [|n']; [done|]. rewrite IH by lia. done.
Qed.

Lemma eq_from_replicate (rb : real_bytes) (N n : nat) (j x y : Z) :
  0 ≤ j → j + Z.of_nat n ≤ Z.of_nat N → (0 < n)%nat →
  eq_from rb n j (replicate N x) (replicate N y)
  = Some (negb (REAL_ne rb x y)).
Proof.
  revert j. induction n as [|n IH]; intros j Hj HN Hn; [lia|].
  cbn [eq_from]. rewrite !rd_replicate by lia. cbn.
  destruct (REAL_ne rb x y) eqn:Hne; [done|].
  destruct n as [|n']; [done|]. rewrite IH by lia. done.
Qed.

(** X12.  Broadcasts compare like their scalars: after [a = x; b = y;] on
    distinct registers of at least one lane, every lane of [a] holds [x] and
    every lane of [b] holds [y], [a == b] is [!(x != y)], [a < b] is [x < y]
    and [a > b] is [x > y]. *)
Theorem broadcast_compare (VLEN : Z) (rb : real_bytes) (a b : nat) (x y : Z)
    (m : mem) (a0 b0 : realv) :
  m !! a = Some a0 → m !! b = Some b0 →
  wf_realv VLEN a0 → wf_realv VLEN b0 → a ≠ b → 1 ≤ VLEN →
  assign_REAL VLEN a x m ≫= assign_REAL VLEN b y
  = Some (<[b := replicate (Z.to_nat VLEN) y]>
            (<[a := replicate (Z.to_nat VLEN) x]> m))
  ∧ realv_eq VLEN rb (replicate (Z.to_nat VLEN) x)
      (replicate (Z.to_nat VLEN) y) = Some (negb (REAL_ne rb x y))
  ∧ realv_lt VLEN rb (replicate (Z.to_nat VLEN) x)
      (replicate (Z.to_nat VLEN) y) = Some (REAL_lt rb x y)
  ∧ realv_gt VLEN rb (replicate (Z.to_nat VLEN) x)
      (replicate (Z.to_nat VLEN) y) = Some (REAL_gt rb x y).
Proof.
  intros Ha Hb Ha0 Hb0 Hne HV. split_and!.
  - rewrite (assign_REAL_lanes VLEN a x m a0) by done. cbn.
    apply (assign_REAL_lanes VLEN b y _ b0); [|done].
    by rewrite lookup_insert_ne.
  - apply eq_from_replicate; lia.
  - apply lt_from_replicate; lia.
  - unfold realv_gt. rewrite gt_from_mirror.
    change (REAL_gt rb x y) with (REAL_lt rb y x).
    apply lt_from_replicate; lia.
Qed.

Lemma broadcast_compare_witness :
  assign_REAL 4 0 float_1 four_regs ≫= assign_REAL 4 2 float_NaN
  = Some (<[2%nat := replicate (Z.to_nat 4) float_NaN]>
            (<[0%nat := replicate (Z.to_nat 4) float_1]> four_regs))
  ∧ realv_eq 4 REAL_BYTES_4 (replicate (Z.to_nat 4) float_1)
      (replicate (Z.to_nat 4) float_NaN)
    = Some (negb (REAL_ne REAL_BYTES_4 float_1 float_NaN))
  ∧ realv_lt 4 REAL_BYTES_4 (replicate (Z.to_nat 4) float_1)
      (replicate (Z.to_nat 4) float_NaN)
    = Some (REAL_lt REAL_BYTES_4 float_1 float_NaN)
  ∧ realv_gt 4 REAL_BYTES_4 (replicate (Z.to_nat 4) float_1)
      (replicate (Z.to_nat 4) float_NaN)
    = Some (REAL_gt REAL_BYTES_4 float_1 float_NaN).
Proof.
  apply (broadcast_compare 4 REAL_BYTES_4 0 2 float_1 float_NaN four_regs
           [10; 20; 30; 40] [50; 60; 70; 80]);
    [reflexivity|reflexivity|reflexivity|reflexivity|lia|lia].
Defined.

(** *** Negation, emulated and with intrinsics *)

Lemma SFsub_from_zero (prec emax : Z) (x : spec_float) :
  SFsub prec emax (S754_zero false) x = SFopp x ↔ x ≠ S754_zero false.
Proof.
  destruct x as [[]|s| |s m e]; cbn; split; done.
Qed.

Lemma land_lxor_pow2_ones (x n k : Z) :
  0 ≤ n ≤ k → Z.land (Z.lxor x (2 ^ k)) (Z.ones n) = Z.land x (Z.ones n).
Proof.
  intros Hnk. apply Z.bits_inj'. intros i Hi.
  rewrite !Z.land_spec, Z.lxor_spec.
  destruct (decide (i < n)) as [Hlt|Hge].
  - rewrite Z.pow2_bits_false by lia. by rewrite xorb_false_r.
  - rewrite Z.ones_spec_high by lia. by rewrite !andb_false_r.
Qed.

(** Inverting the sign bit of a lane negates the real it stands for. *)
Lemma REAL_of_bits_flip_sign (rb : real_bytes) (x : Z) :
  REAL_of_bits rb (Z.lxor x (REAL_sign_bit rb)) = SFopp (REAL_of_bits rb x).
Proof.
  unfold REAL_of_bits, REAL_sign_bit.
  set (mw := REAL_prec rb - 1). set (ew := REAL_expbits rb).
  assert (Hmw : 0 < mw) by (destruct rb; done).
  assert (Hew : 0 < ew) by (destruct rb; done).
  replace (REAL_bits rb - 1) with (mw + ew) by (destruct rb; done).
  assert (Hs : Z.testbit (Z.lxor x (2 ^ (mw + ew))) (mw + ew)
               = negb (Z.testbit x (mw + ew))).
  { rewrite Z.lxor_spec, Z.pow2_bits_true by lia. apply xorb_true_r. }
  assert (He : Z.land (Z.shiftr (Z.lxor x (2 ^ (mw + ew))) mw) (Z.ones ew)
               = Z.land (Z.shiftr x mw) (Z.ones ew)).
  { rewrite Z.shiftr_lxor, (Z.shiftr_div_pow2 (2 ^ (mw + ew))) by lia.
    rewrite Z.pow_add_r, Z.mul_comm, Z.div_mul by lia.
    apply land_lxor_pow2_ones. lia. }
  assert (Hf : Z.land (Z.lxor x (2 ^ (mw + ew))) (Z.ones mw)
               = Z.land x (Z.ones mw)).
  { apply land_lxor_pow2_ones. lia. }
  rewrite Hs, He, Hf.
  generalize (emin (REAL_prec rb) (REAL_emax rb)). intros em.
  destruct (Z.land (Z.shiftr x mw) (Z.ones ew) =? 0).
  { by destruct (Z.land x (Z.ones mw)). }
  destruct (Z.land (Z.shiftr x mw) (Z.ones ew) =? Z.ones ew).
  { by destruct (Z.land x (Z.ones mw) =? 0). }
  by destruct (Z.land x (Z.ones mw) + 2 ^ mw).
Qed.

(** X13.  On a register without NaN lanes the two builds of the unary minus
    give lanes of the same value, the sign of a zero counted, exactly when no
    lane holds [+0.0]: there the emulation gives [-0.0] and the subtraction
    from zero gives [+0.0]. *)
Theorem negate_builds_agree (rb : real_bytes) (r : realv) :
  no_NaN rb r →
  negate_intrinsics rb r = REAL_of_bits rb <$> negate_emulated rb r
  ↔ Forall (λ x, REAL_of_bits rb x ≠ S754_zero false) r.
Proof.
  intros _. unfold negate_intrinsics, negate_emulated.
  induction r as [|x r IH]; [by split; [constructor|]|].
  rewrite !fmap_cons, Forall_cons, <- IH, <- SFsub_from_zero.
  rewrite REAL_of_bits_flip_sign. split.
  - intros [= H1 H2]. by split.
  - intros [H1 H2]. by f_equal.
Qed.

Lemma negate_builds_agree_witness :
  negate_intrinsics REAL_BYTES_4 [float_1; float_neg_zero; float_5]
  = REAL_of_bits REAL_BYTES_4
      <$> negate_emulated REAL_BYTES_4 [float_1; float_neg_zero; float_5]
  ↔ Forall (λ x, REAL_of_bits REAL_BYTES_4 x ≠ S754_zero false)
      [float_1; float_neg_zero; float_5].
Proof.
  apply (negate_builds_agree REAL_BYTES_4 [float_1; float_neg_zero; float_5]).
  repeat constructor; by vm_compute.
Defined.

(** At [+0.0] the emulation leaves the pattern of [-0.0] and the intrinsic
    build the value [+0.0]; the emulation inverts the sign bit of a NaN
    too. *)
Example negate_plus_zero :
  negate_emulated REAL_BYTES_4 [float_pos_zero] = [float_neg_zero]
  ∧ negate_intrinsics REAL_BYTES_4 [float_pos_zero] = [S754_zero false]
  ∧ negate_emulated REAL_BYTES_4 [float_NaN] = [0xffc00000].
Proof. split_and!; reflexivity. Qed.

End RealvMoreProofs.

(** ** More about visitors *)

Module VisitorMoreProofs.
Import Grid Visitor VisitorSpec VisitorProofs MoreSpec.

Lemma foldl_visit_concat {St} (ev : ExprVisitor St) (ops : list Expr) :
  Forall (λ e, ∀ s, accept ev e s
                    = foldl (λ t l, visit_Leaf ev l t) s (leaves e)) ops →
  ∀ s, accept_each (map (accept ev) ops) s
       = foldl (λ t l, visit_Leaf ev l t) s (concat (map leaves ops)).
Proof.
  induction 1 as [|e ops He _ IH]; intros s; [done|].
  cbn [map concat accept_each foldl]. rewrite foldl_app, <- He. apply IH.
Qed.

(** X14.  The traversal the base class gives: a visitor that overrides
    [visit] for leaves only runs its leaf visits on the leaf occurrences of
    the expression from left to right, the left-hand point of an equation
    first, and does nothing else. *)
Theorem inherited_traversal_visits_leaves_in_order (St : Type)
    (ev : ExprVisitor St) (e : Expr) (s : St) :
  inner_visits_inherited ev →
  accept ev e s = foldl (λ t l, visit_Leaf ev l t) s (leaves e).
Proof.
  intros (HUn & HBin & HEq & HComm). revert s.
  induction e as [val|code|gp|op rhs IHr|op lhs rhs IHl IHr|lhs rhs IHr
                 |op ops IHops] using Expr_ind; intros s; cbn [accept leaves].
  - done.
  - done.
  - done.
  - rewrite HUn. apply IHr.
  - rewrite HBin. unfold ExprVisitor_visit_BinaryExpr.
    by rewrite foldl_app, <- IHl, <- IHr.
  - rewrite HEq. unfold ExprVisitor_visit_EqualsExpr. cbn [foldl visit_Leaf].
    apply IHr.
  - rewrite HComm. unfold ExprVisitor_visit_CommutativeExpr.
    by apply foldl_visit_concat.
Qed.

Lemma inherited_traversal_visits_leaves_in_order_witness :
  accept PointLogVisitor equation_example []
  = foldl (λ t l, visit_Leaf PointLogVisitor l t) [] (leaves equation_example).
Proof.
  apply (inherited_traversal_visits_leaves_in_order _ PointLogVisitor
           equation_example []).
  by split_and!.
Defined.

Example PointLogVisitor_equation :
  accept PointLogVisitor equation_example [] = [data_t1_x; data_t_x1].
Proof. reflexivity. Qed.

(** X15.  One op counter used for several expressions adds them up: from a
    counter [s] a visit leaves [s] plus the operations of the expression, as
    an [int], so two visits in a row count both expressions. *)
Theorem FpOpCounter_accumulates (e1 e2 : Expr) (s : Z) :
  is_int s →
  accept FpOpCounterVisitor e1 s = to_int (s + total_ops e1)
  ∧ accept FpOpCounterVisitor e2 (accept FpOpCounterVisitor e1 s)
    = to_int (s + total_ops e1 + total_ops e2).
Proof.
  intros Hs.
  assert (∀ e t, is_int t →
                 accept FpOpCounterVisitor e t = to_int (t + total_ops e))
    as Hadd.
  { intros e t Ht.
    rewrite <- (to_int_id (accept FpOpCounterVisitor e t))
      by (by apply accept_FpOpCounter_is_int).
    apply accept_FpOpCounter. }
  split; [by apply Hadd|].
  rewrite (Hadd e1 s Hs), (Hadd e2) by apply to_int_is_int.
  apply to_int_idemp_add.
Qed.

Lemma FpOpCounter_accumulates_witness :
  accept FpOpCounterVisitor equation_example 0
  = to_int (0 + total_ops equation_example)
  ∧ accept FpOpCounterVisitor sum_example
      (accept FpOpCounterVisitor equation_example 0)
    = to_int (0 + total_ops equation_example + total_ops sum_example).
Proof.
  apply (FpOpCounter_accumulates equation_example sum_example 0).
  unfold is_int. lia.
Defined.

Lemma total_ops_binary_chain (op : string) (e : Expr) (es : list Expr) :
  total_ops (binary_chain op e es)
  = Z.of_nat (length es) + total_ops e + sum_Z (map total_ops es).
Proof.
  revert e. induction es as [|e' es IH]; intros e.
  - cbn [binary_chain length map]. unfold sum_Z. cbn [foldr]. lia.
  - cbn [binary_chain]. rewrite total_ops_Binary, IH.
    cbn [length map sum_Z foldr]. fold (sum_Z (map total_ops es)). lia.
Qed.

(** X16.  A commutative node over one operand or more counts what the same
    operands cost when they are combined two at a time by binary nodes; a
    commutative node without operands takes one off the counter. *)
Theorem FpOpCounter_commutative_as_binary :
  (∀ op e es,
     getNumOps (accept FpOpCounterVisitor (CommutativeExpr op (e :: es))
                  FpOpCounter_init)
     = getNumOps (accept FpOpCounterVisitor (binary_chain op e es)
                    FpOpCounter_init))
  ∧ (∀ op,
       getNumOps (accept FpOpCounterVisitor (CommutativeExpr op [])
                    FpOpCounter_init) = -1).
Proof.
  split.
  - intros op e es. rewrite !getNumOps_total. f_equal.
    rewrite total_ops_Commutative, total_ops_binary_chain.
    cbn [length map sum_Z foldr]. fold (sum_Z (map total_ops es)). lia.
  - intros op. by vm_compute.
Qed.

End VisitorMoreProofs.

(** ** More about the pointer cache *)

Module CppMoreProofs.
Import Grid Cpp CppSpec CppProofs.

(** X17.  The map of pointer names: a new helper knows no point; saving a
    name for a point leaves the names of all other points, the offset ranges
    and the variable counter as they were; a second save for the same point
    replaces the name; and saving the name a point already has changes
    nothing. *)
Theorem savePointPtr_lookupPointPtr :
  (∀ dims varPrefix gp,
     lookupPointPtr (new_CppVecPrintHelper dims varPrefix) gp = None)
  ∧ (∀ h gp gp' var,
       gp' ≠ gp →
       lookupPointPtr (savePointPtr h gp var) gp' = lookupPointPtr h gp')
  ∧ (∀ h gp var,
       _ptrOfsLo (savePointPtr h gp var) = _ptrOfsLo h
       ∧ _ptrOfsHi (savePointPtr h gp var) = _ptrOfsHi h
       ∧ _varNum (savePointPtr h gp var) = _varNum h)
  ∧ (∀ h gp var1 var2,
       savePointPtr (savePointPtr h gp var1) gp var2 = savePointPtr h gp var2)
  ∧ (∀ h gp var,
       lookupPointPtr h gp = Some var → savePointPtr h gp var = h).
Proof.
  split_and!.
  - intros dims varPrefix gp. rewrite lookupPointPtr_lookup. apply lookup_empty.
  - intros h gp gp' var Hne. rewrite !lookupPointPtr_lookup.
    by apply lookup_insert_ne.
  - done.
  - intros h gp var1 var2. unfold savePointPtr. cbn. f_equal.
    apply insert_insert_eq.
  - intros [dims prefix num ptrs lo hi] gp var.
    rewrite lookupPointPtr_lookup. unfold savePointPtr. cbn. intros Hvar.
    f_equal. by apply insert_id.
Qed.

Lemma savePointPtr_lookupPointPtr_witness :
  lookupPointPtr (savePointPtr helper_example (u_at 0 0 0) "p0") (u_at 0 0 1)
  = lookupPointPtr helper_example (u_at 0 0 1)
  ∧ savePointPtr (savePointPtr helper_example (u_at 0 0 0) "p0")
      (u_at 0 0 0) "p0"
    = savePointPtr helper_example (u_at 0 0 0) "p0".
Proof.
  destruct savePointPtr_lookupPointPtr as (_ & Hother & _ & _ & Hsame).
  split.
  - apply Hother. done.
  - apply Hsame. by vm_compute.
Defined.

Lemma setArgConst_in_agree (dims : list string) (args1 args2 : list IndexExpr)
    (val : IntScalar) :
  NoDup dims → length args1 = length args2 →
  (∀ i, dims !! i ≠ Some (is_name val) → args1 !! i = args2 !! i) →
  setArgConst_in dims args1 val = setArgConst_in dims args2 val.
Proof.
  intros Hnodup. revert args1 args2.
  induction Hnodup as [|dn dims Hnotin _ IH]; intros args1 args2 Hlen Hagree.
  - assert (args1 = args2) as ->; [|done].
    apply list_eq. intros i. by apply Hagree.
  - destruct args1 as [|a1 args1], args2 as [|a2 args2]; try done.
    cbn [setArgConst_in]. case_decide as Hdn.
    + f_equal. apply list_eq. intros i. apply (Hagree (S i)). cbn.
      intros Hi. apply Hnotin. rewrite Hdn. by eapply list_elem_of_lookup_2.
    + f_equal.
      * assert (Some a1 = Some a2) as [= ->]; [|done].
        apply (Hagree 0%nat). cbn. congruence.
      * apply IH; [by injection Hlen|]. intros i Hi. by apply (Hagree (S i)).
Qed.

(** X18.  Accesses to a grid that differ in the inner-dimension index only
    have the same base point, and so the same entry of the pointer cache
    ([GridPoint::setArgConst] being as the data model describes it). *)
Theorem makeBasePoint_shared (h : CppVecPrintHelper) (grid : Grid)
    (args1 args2 : list IndexExpr) :
  NoDup (grid_dims grid) → length args1 = length args2 →
  (∀ i, grid_dims grid !! i ≠ Some (_innerDim (getDims h)) →
        args1 !! i = args2 !! i) →
  makeBasePoint h {| gp_grid := grid; gp_args := args1 |}
  = makeBasePoint h {| gp_grid := grid; gp_args := args2 |}.
Proof.
  intros Hnodup Hlen Hagree.
  unfold makeBasePoint, cloneGridPoint, setArgConst. cbn [gp_grid gp_args].
  f_equal. by apply setArgConst_in_agree.
Qed.

Lemma makeBasePoint_shared_witness :
  makeBasePoint helper_example (u_at 0 1 3)
  = makeBasePoint helper_example (u_at 0 (-2) 3).
Proof.
  apply (makeBasePoint_shared helper_example u_grid
           [IdxOffset 0; IdxOffset 1; IdxOffset 3]
           [IdxOffset 0; IdxOffset (-2); IdxOffset 3]).
  - apply (bool_decide_unpack _). by vm_compute.
  - reflexivity.
  - intros [|[|[|i]]] Hi; try done.
Defined.

End CppMoreProofs.

(** ** More about the coefficient solver *)

Module FdCoeffMoreProofs.
Import FdCoeff FdCoeffSpec FdCoeffProofs.

(** X19.  With two points or more and an order that is not negative, every
    call of the solver stops at the read of [d[-1][0][0]], whatever the
    points, the evaluation point and the order are. *)
Theorem fd_coeff_two_points_or_more (eval_point : float) (order : Z)
    (points : list float) (num_points : Z) (coeff0 : list float) :
  0 ≤ order → 2 ≤ num_points → Z.of_nat (length points) = num_points →
  fd_coeff eval_point order points num_points coeff0
  = OutOfBounds "d" [-1; 0; 0].
Proof. apply fd_coeff_reads_plane_minus_1. Qed.

Lemma fd_coeff_two_points_or_more_witness :
  fd_coeff zero 2 [float_of_int (-1); zero; float_of_int 1] 3 [zero; zero; zero]
  = OutOfBounds "d" [-1; 0; 0].
Proof.
  apply (fd_coeff_two_points_or_more zero 2
           [float_of_int (-1); zero; float_of_int 1] 3 [zero; zero; zero]);
    [lia|lia|reflexivity].
Defined.

(** X20.  With a single point the solver stays in bounds and returns the
    weight 1 for order 0 and the weight 0 for every higher order. *)
Theorem fd_coeff_single_point (eval_point : float) (order : Z) (p c : float) :
  0 ≤ order →
  fd_coeff eval_point order [p] 1 [c]
  = Ok [if decide (order = 0) then float_of_int 1 else S754_zero false].
Proof.
  intros Hord. unfold fd_coeff, d_set, d_get, for_upto.
  rewrite decide_True by (unfold d_in_bounds; lia).
  change (Z.to_nat (1 - 1 + 1 - 1)) with 0%nat.
  change (Z.to_nat (1 - 1 + 1 - 0)) with 1%nat.
  change (1 - 1) with 0.
  cbn [mbind outcome_bind for_count].
  rewrite decide_True by (unfold d_in_bounds; lia).
  cbn [mbind outcome_bind set_c1 set_d set_coeff d coeff].
  unfold arr_set. rewrite decide_True by (cbn; lia).
  cbn [mbind outcome_bind set_coeff coeff]. f_equal.
  change (<[Z.to_nat 0 := ?x]> [c]) with [x]. f_equal.
  case_decide as Ho.
  - subst order. by rewrite lookup_insert_eq.
  - rewrite lookup_insert_ne by congruence. done.
Qed.

Lemma fd_coeff_single_point_witness :
  fd_coeff zero 2 [zero] 1 [zero]
  = Ok [if decide (2 = 0) then float_of_int 1 else S754_zero false].
Proof. apply (fd_coeff_single_point zero 2 zero zero). lia. Defined.

(** X21.  Without a point, or with a negative order, the table [d] has no
    cell [d[0][0][0]] and the first assignment of the solver is outside
    it. *)
Theorem fd_coeff_empty_table (eval_point : float) (order : Z)
    (points : list float) (num_points : Z) (coeff0 : list float) :
  num_points ≤ 0 ∨ order < 0 →
  fd_coeff eval_point order points num_points coeff0
  = OutOfBounds "d" [0; 0; 0].
Proof.
  intros Hempty. unfold fd_coeff, d_set.
  rewrite decide_False; [done|]. unfold d_in_bounds. lia.
Qed.

Lemma fd_coeff_empty_table_witness :
  fd_coeff zero 1 [] 0 [] = OutOfBounds "d" [0; 0; 0].
Proof. apply (fd_coeff_empty_table zero 1 [] 0 []). lia. Defined.

End FdCoeffMoreProofs.
